(** * The parallelizer worker ([fixtures/parallelizer/remote.py])

    A shallow embedding of [SlaveManager] and [serialize_report], the
    worker side of the master/worker test distribution protocol.  The
    source is Python 2 (the repository uses [iteritems] and [basestring]),
    and the embedding follows Python 2 semantics throughout; the one place
    where this matters is a [StopIteration] escaping from the body of a
    generator, which in Python 2 simply ends that generator.

    Layout: Python values and exceptions; the world (the worker object,
    the request/reply socket, the object store); a state-and-exception
    monad; the methods of [SlaveManager] in source order; the two
    generators as resumable state machines; then the theorems. *)

From Stdlib Require Import ZArith Ascii.
From stdpp Require Import base option list strings gmap fin_maps.

Open Scope string_scope.
Open Scope list_scope.
Set Warnings "-register-all".

(** ** Python values *)

(** The values that travel through the worker: JSON data, plus the three
    kinds of objects [serialize_report] tells apart. *)
Inductive PyVal : Type :=
  | VNone
  | VBool (b : bool)
  | VInt (n : Z)
  | VStr (s : string)
  | VList (l : list PyVal)
  | VDict (d : list (string * PyVal))
  | VLocal (path : string)      (* a [py.path.local]; [str] gives the path *)
  | VRepr (text : string)       (* an object with [toterminal]; [str] gives [text] *)
  | VObj (id : nat).            (* any other object, e.g. collected nodes *)

Inductive Exn : Type :=
  | SystemExit
  | KeyError (key : PyVal)
  | TypeError
  | IndexError
  | AttributeError (attr : string).

(** [v == s] for a string literal [s]. *)
Definition py_eq_str (v : PyVal) (s : string) : bool :=
  match v with
  | VStr t => String.eqb t s
  | _ => false
  end.

(** Truth value of a value, as [not v] sees it. *)
Definition truthy (v : PyVal) : bool :=
  match v with
  | VNone => false
  | VBool b => b
  | VInt n => negb (n =? 0)%Z
  | VStr s => negb (String.eqb s "")
  | VList l => negb (bool_decide (l = []))
  | VDict d => negb (bool_decide (d = []))
  | VLocal _ | VRepr _ | VObj _ => true
  end.

Fixpoint chars (s : string) : list PyVal :=
  match s with
  | EmptyString => []
  | String c rest => VStr (String c EmptyString) :: chars rest
  end.

(** The elements [for x in v] runs through; [None] when [v] is not
    iterable. *)
Definition py_iter (v : PyVal) : option (list PyVal) :=
  match v with
  | VList l => Some l
  | VStr s => Some (chars s)
  | VDict d => Some (VStr <$> d.*1)
  | _ => None
  end.

(** [str(v)] on the objects the source applies it to. *)
Definition py_str (v : PyVal) : string :=
  match v with
  | VStr s => s
  | VLocal p => p
  | VRepr t => t
  | VNone => "None"
  | VBool true => "True"
  | VBool false => "False"
  | _ => "<object>"
  end.

(** What [json.dumps] accepts. *)
Fixpoint json_ok (v : PyVal) : bool :=
  match v with
  | VNone | VBool _ | VInt _ | VStr _ => true
  | VList l => forallb json_ok l
  | VDict d => forallb (fun kv => json_ok (snd kv)) d
  | VLocal _ | VRepr _ | VObj _ => false
  end.

(** Keyword arguments and messages are dictionaries written as lists of
    entries with distinct keys, like the entries of [VDict]. *)
Definition dict_json_ok (d : list (string * PyVal)) : bool := json_ok (VDict d).

(** [d[key]] and [d[key] = v] on such a list. *)
Fixpoint assoc_get (key : string) (d : list (string * PyVal)) : option PyVal :=
  match d with
  | [] => None
  | (k, v) :: d' => if String.eqb k key then Some v else assoc_get key d'
  end.

Fixpoint assoc_set (key : string) (v : PyVal) (d : list (string * PyVal))
  : list (string * PyVal) :=
  match d with
  | [] => [(key, v)]
  | (k, v') :: d' =>
      if String.eqb k key then (k, v) :: d' else (k, v') :: assoc_set key v d'
  end.

(** ** The world *)

Record Item : Type := { nodeid : string; body : nat }.

Record Session : Type := { items : list Item }.

(** The fields of [self]. *)
Record SlaveManager : Type := {
  collectonly : bool;                       (* config.option.collectonly *)
  slaveid : string;
  base_url : string;
  session : option Session;
  collection : option (gmap string Item);
  quit_signaled : bool
}.

(** What an observer of the worker sees, in order. *)
Inductive Event : Type :=
  | EvSend (msg : list (string * PyVal))    (* sock.send_json *)
  | EvRecv (reply : PyVal)                  (* sock.recv_json *)
  | EvRun (item : Item) (nextitem : option Item).
                                            (* hook.pytest_runtest_protocol *)

Record World : Type := {
  self : SlaveManager;
  inbox : list PyVal;                       (* the master's coming replies *)
  trace : list Event;
  heap : list (gmap string PyVal)           (* [__dict__] of live objects *)
}.

Definition set_self (f : SlaveManager -> SlaveManager) (w : World) : World :=
  {| self := f (self w); inbox := inbox w; trace := trace w; heap := heap w |}.

Definition set_inbox (l : list PyVal) (w : World) : World :=
  {| self := self w; inbox := l; trace := trace w; heap := heap w |}.

Definition log_event (e : Event) (w : World) : World :=
  {| self := self w; inbox := inbox w; trace := trace w ++ [e]; heap := heap w |}.

Definition set_heap (h : list (gmap string PyVal)) (w : World) : World :=
  {| self := self w; inbox := inbox w; trace := trace w; heap := h |}.

Definition with_quit (b : bool) (s : SlaveManager) : SlaveManager :=
  {| collectonly := collectonly s; slaveid := slaveid s; base_url := base_url s;
     session := session s; collection := collection s; quit_signaled := b |}.

Definition with_session (x : Session) (s : SlaveManager) : SlaveManager :=
  {| collectonly := collectonly s; slaveid := slaveid s; base_url := base_url s;
     session := Some x; collection := collection s;
     quit_signaled := quit_signaled s |}.

Definition with_collection (c : gmap string Item) (s : SlaveManager) : SlaveManager :=
  {| collectonly := collectonly s; slaveid := slaveid s; base_url := base_url s;
     session := session s; collection := Some c;
     quit_signaled := quit_signaled s |}.

(** ** The monad: state, exceptions, a blocked receive, fuel *)

Inductive Outcome (A : Type) : Type :=
  | Ret (a : A)
  | Raise (e : Exn)
  | Blocked                                  (* [recv_json] with no reply coming *)
  | OutOfFuel.
Arguments Ret {A} a.
Arguments Raise {A} e.
Arguments Blocked {A}.
Arguments OutOfFuel {A}.

Definition M (A : Type) : Type := World -> Outcome A * World.

Definition ret {A} (a : A) : M A := fun w => (Ret a, w).
Definition raise {A} (e : Exn) : M A := fun w => (Raise e, w).
Definition bind {A B} (m : M A) (k : A -> M B) : M B :=
  fun w =>
    match m w with
    | (Ret a, w') => k a w'
    | (Raise e, w') => (Raise e, w')
    | (Blocked, w') => (Blocked, w')
    | (OutOfFuel, w') => (OutOfFuel, w')
    end.
Definition gets {A} (f : World -> A) : M A := fun w => (Ret (f w), w).
Definition modify (f : World -> World) : M unit := fun w => (Ret tt, f w).

Notation "'do' x <- m ; k" := (bind m (fun x => k))
  (at level 10, x name, m at level 100, k at level 200).
Notation "m ;; k" := (bind m (fun _ => k))
  (at level 100, k at level 200, right associativity).

(** ** The socket *)

Definition sock_send_json (msg : list (string * PyVal)) : M unit :=
  if dict_json_ok msg then modify (log_event (EvSend msg)) else raise TypeError.

Definition sock_recv_json : M PyVal :=
  fun w =>
    match inbox w with
    | [] => (Blocked, w)
    | r :: rest => (Ret r, log_event (EvRecv r) (set_inbox rest w))
    end.

(** ** [SlaveManager] *)

Definition init (config_collectonly : bool) (id url : string) : SlaveManager :=
  {| collectonly := config_collectonly; slaveid := id; base_url := url;
     session := None; collection := None; quit_signaled := false |}.

(** [send_event]; a [return] without value, like falling off the end, gives
    [VNone]. *)
Definition send_event (name : string) (kwargs : list (string * PyVal))
  : M PyVal :=
  let kwargs := assoc_set "_event_name" (VStr name) kwargs in
  sock_send_json kwargs ;;
  do recv <- sock_recv_json ;
  if py_eq_str recv "die" then raise SystemExit
  else if negb (py_eq_str recv "ack") then ret recv
  else ret VNone.

Definition message (text : string) (kwargs : list (string * PyVal)) : M unit :=
  send_event "message" [("message", VStr text); ("markup", VDict kwargs)] ;;
  ret tt.

(** *** [pytest_collection_finish] *)

(** [{item.nodeid: item for item in session.items}]: a later item with the
    same node id replaces an earlier one. *)
Definition collect (l : list Item) : gmap string Item :=
  foldl (fun c it => <[nodeid it := it]> c) ∅ l.

Definition dict_keys {A} (d : gmap string A) : list string := (map_to_list d).*1.

Definition pytest_collection_finish (s : Session) : M unit :=
  modify (set_self (with_session s)) ;;
  modify (set_self (with_collection (collect (items s)))) ;;
  do c <- gets (fun w => default ∅ (collection (self w))) ;
  send_event "collectionfinish"
    [("node_ids", VList (VStr <$> dict_keys c))] ;;
  ret tt.

(** *** [serialize_report] and the object store *)

(** An object is a position in [heap]; its [__dict__] is the map stored
    there.  Reading through a position that holds nothing is reported as
    the attribute error a missing attribute gives. *)
Definition getattr (obj : nat) (name : string) : M PyVal :=
  fun w =>
    match heap w !! obj with
    | Some d =>
        match d !! name with
        | Some v => (Ret v, w)
        | None => (Raise (AttributeError name), w)
        end
    | None => (Raise (AttributeError name), w)
    end.

(** [new(fields)]: a fresh object. *)
Definition alloc (fields : gmap string PyVal) : M nat :=
  fun w => (Ret (length (heap w)), set_heap (heap w ++ [fields]) w).

(** [obj.__dict__.copy()]: a new dictionary with the same entries. *)
Definition dict_copy (obj : nat) : M nat :=
  fun w =>
    match heap w !! obj with
    | Some d => alloc d w
    | None => (Raise (AttributeError "__dict__"), w)
    end.

(** [d[name] = v] *)
Definition dict_set (d : nat) (name : string) (v : PyVal) : M unit :=
  modify (fun w => set_heap (alter (insert name v) d (heap w)) w).

(** [d[name]] *)
Definition dict_get (d : nat) (name : string) : M PyVal :=
  fun w =>
    match heap w !! d ≫= (.!! name) with
    | Some v => (Ret v, w)
    | None => (Raise (KeyError (VStr name)), w)
    end.

Definition dict_names (d : nat) : M (list string) :=
  gets (fun w => dict_keys (default ∅ (heap w !! d))).

Definition has_toterminal (v : PyVal) : bool :=
  match v with VRepr _ => true | _ => false end.

Definition is_local (v : PyVal) : bool :=
  match v with VLocal _ => true | _ => false end.

Fixpoint for_each {A} (l : list A) (body : A -> M unit) : M unit :=
  match l with
  | [] => ret tt
  | x :: l' => body x ;; for_each l' body
  end.

(** The body of [for name in d]. *)
Definition serialize_field (d : nat) (name : string) : M unit :=
  do v <- dict_get d name ;
  if is_local v then dict_set d name (VStr (py_str v))
  else if String.eqb name "result" then dict_set d name VNone
  else ret tt.

Definition serialize_report (rep : nat) : M nat :=
  do d <- dict_copy rep ;
  do longrepr <- getattr rep "longrepr" ;
  (if has_toterminal longrepr
   then dict_set d "longrepr" (VStr (py_str longrepr))
   else dict_set d "longrepr" longrepr) ;;
  do names <- dict_names d ;
  for_each names (serialize_field d) ;;
  ret d.

(** The dictionary at [d] as a value, for a message payload. *)
Definition dict_value (d : nat) : M PyVal :=
  gets (fun w => VDict (map_to_list (default ∅ (heap w !! d)))).

(** *** The relaying hooks *)

Definition pytest_runtest_logstart (id location : PyVal) : M unit :=
  send_event "runtest_logstart" [("nodeid", id); ("location", location)] ;;
  ret tt.

Definition pytest_runtest_logreport (report : nat) : M unit :=
  do d <- serialize_report report ;
  do v <- dict_value d ;
  send_event "runtest_logreport" [("report", v)] ;;
  ret tt.

(** [str.strip] and [str.splitlines] of Python 2 byte strings. *)
Definition is_space (c : ascii) : bool :=
  let n := nat_of_ascii c in
  Nat.eqb n 32 || (Nat.leb 9 n && Nat.leb n 13).

Fixpoint lstrip (s : list ascii) : list ascii :=
  match s with
  | c :: rest => if is_space c then lstrip rest else s
  | [] => []
  end.

Definition strip (s : list ascii) : list ascii :=
  reverse (lstrip (reverse (lstrip s))).

Fixpoint splitlines_go (after_cr : bool) (cur : list ascii) (s : list ascii)
  : list (list ascii) :=
  match s with
  | [] => if bool_decide (cur = []) then [] else [reverse cur]
  | c :: rest =>
      if Nat.eqb (nat_of_ascii c) 10 then
        if after_cr then splitlines_go false cur rest
        else reverse cur :: splitlines_go false [] rest
      else if Nat.eqb (nat_of_ascii c) 13 then
        reverse cur :: splitlines_go true [] rest
      else splitlines_go false (c :: cur) rest
  end.

Definition splitlines (s : list ascii) : list (list ascii) :=
  splitlines_go false [] s.

Definition pytest_internalerror (excrepr : PyVal) : M unit :=
  let msg := String.append "INTERNALERROR> " (py_str excrepr) in
  match last (splitlines (strip (String.list_ascii_of_string msg))) with
  | None => raise IndexError
  | Some line =>
      let short_tb :=
        String.append "INTERNALERROR> " (String.string_of_list_ascii line) in
      send_event "internalerror" [("message", VStr short_tb)] ;;
      ret tt
  end.

(** *** Shutting down *)

Definition handle_quit : M unit :=
  message "shutting down after the current test due to QUIT signal" [] ;;
  modify (set_self (with_quit true)).

Definition shutdown : M unit :=
  message "shutting down" [] ;;
  send_event "shutdown" [] ;;
  modify (set_self (with_quit true)).

Definition pytest_sessionfinish : M unit := shutdown.

(** *** The generators *)

(** [self.collection[key]] *)
Definition collection_getitem (key : PyVal) : M Item :=
  fun w =>
    match collection (self w) with
    | None => (Raise TypeError, w)                (* [None] has no items *)
    | Some c =>
        match key with
        | VStr s =>
            match c !! s with
            | Some it => (Ret it, w)
            | None => (Raise (KeyError key), w)
            end
        | VList _ | VDict _ => (Raise TypeError, w)   (* unhashable *)
        | _ => (Raise (KeyError key), w)
        end
    end.

(** Where [_iter_nodes] is suspended: not yet started, inside the [for]
    over a batch with [rest] still to come, or finished. *)
Inductive IterNodes : Type :=
  | INStart
  | INBatch (rest : list PyVal)
  | INDone.

(** One turn of [while True]: ask for tests, stop on a false reply,
    otherwise enter the [for] and yield its first element.  A true value
    that iterates over nothing does not exist among [PyVal]
    ([truthy_iter_nonempty] below), so that branch is never taken. *)
Definition iter_nodes_pull : M (option Item * IterNodes) :=
  do node_ids <- send_event "need_tests" [] ;
  if negb (truthy node_ids) then ret (None, INDone)
  else
    match py_iter node_ids with
    | None => raise TypeError
    | Some [] => ret (None, INDone)
    | Some (id :: rest) =>
        do it <- collection_getitem id ;
        ret (Some it, INBatch rest)
    end.

(** [next(node_iter)]; [None] stands for [StopIteration]. *)
Definition iter_nodes_next (g : IterNodes) : M (option Item * IterNodes) :=
  match g with
  | INStart | INBatch [] => iter_nodes_pull
  | INBatch (id :: rest) =>
      do it <- collection_getitem id ;
      ret (Some it, INBatch rest)
  | INDone => ret (None, INDone)
  end.

(** Where [_test_generator] is suspended: not yet started; at the [yield]
    inside the [for], about to make [run_node] the node it has just handed
    out as the next one; at the last [yield]; or finished. *)
Inductive TestGen : Type :=
  | TGStart
  | TGLoop (run_node : Item) (node_iter : IterNodes)
  | TGLast
  | TGDone.

(** One step of [for next_node in node_iter], and the [yield] after the
    loop when the iterator is exhausted. *)
Definition pair_up (run_node : Item) (node_iter : IterNodes)
  : M (option (Item * option Item) * TestGen) :=
  do r <- iter_nodes_next node_iter ;
  match r with
  | (Some next_node, node_iter') =>
      ret (Some (run_node, Some next_node), TGLoop next_node node_iter')
  | (None, _) => ret (Some (run_node, None), TGLast)
  end.

(** [next] on [_test_generator()].  When the first [next(node_iter)] stops,
    the [StopIteration] leaves the generator body and ends it. *)
Definition test_generator_next (g : TestGen)
  : M (option (Item * option Item) * TestGen) :=
  match g with
  | TGStart =>
      do r <- iter_nodes_next INStart ;
      match r with
      | (Some run_node, node_iter) => pair_up run_node node_iter
      | (None, _) => ret (None, TGDone)
      end
  | TGLoop run_node node_iter => pair_up run_node node_iter
  | TGLast | TGDone => ret (None, TGDone)
  end.

Definition out_of_fuel {A} : M A := fun w => (OutOfFuel, w).

(** [list(g)]: run a generator to its end. *)
Fixpoint drain (fuel : nat) (g : TestGen) : M (list (Item * option Item)) :=
  match fuel with
  | 0 => out_of_fuel
  | S fuel' =>
      do r <- test_generator_next g ;
      match r with
      | (None, _) => ret []
      | (Some p, g') => do ps <- drain fuel' g' ; ret (p :: ps)
      end
  end.

(** *** The run loop *)

(** What the test engine and the operating system may do to the worker
    while one test runs: call any of its methods.  [CLogReport] comes with
    the fields of the report the engine has built for the call. *)
Inductive Call : Type :=
  | CSendEvent (name : string) (kwargs : list (string * PyVal))
  | CMessage (text : string) (kwargs : list (string * PyVal))
  | CCollectionFinish (s : Session)
  | CLogStart (id location : PyVal)
  | CLogReport (fields : gmap string PyVal)
  | CInternalError (excrepr : PyVal)
  | CSessionFinish
  | CHandleQuit
  | CShutdown.

Definition run_call (c : Call) : M unit :=
  match c with
  | CSendEvent name kwargs => send_event name kwargs ;; ret tt
  | CMessage text kwargs => message text kwargs
  | CCollectionFinish s => pytest_collection_finish s
  | CLogStart id location => pytest_runtest_logstart id location
  | CLogReport fields => do rep <- alloc fields ; pytest_runtest_logreport rep
  | CInternalError excrepr => pytest_internalerror excrepr
  | CSessionFinish => pytest_sessionfinish
  | CHandleQuit => handle_quit
  | CShutdown => shutdown
  end.

Section RunLoop.

(** The engine's [pytest_runtest_protocol], which is not part of the
    worker: for each test, the calls it makes back into the worker. *)
Variable runtest_protocol : Item -> option Item -> list Call.

Definition hook_pytest_runtest_protocol (item : Item) (nextitem : option Item)
  : M unit :=
  modify (log_event (EvRun item nextitem)) ;;
  for_each (runtest_protocol item nextitem) run_call.

(** The [for] loop of [pytest_runtestloop], from generator state [g]. *)
Fixpoint runtestloop_from (fuel : nat) (g : TestGen) : M bool :=
  match fuel with
  | 0 => out_of_fuel
  | S fuel' =>
      do r <- test_generator_next g ;
      match r with
      | (None, _) => ret true
      | (Some (item, nextitem), g') =>
          do co <- gets (fun w => collectonly (self w)) ;
          (if co then message (nodeid item) []
           else hook_pytest_runtest_protocol item nextitem) ;;
          do quit <- gets (fun w => quit_signaled (self w)) ;
          if quit then ret true else runtestloop_from fuel' g'
      end
  end.

Definition pytest_runtestloop (fuel : nat) : M bool :=
  runtestloop_from fuel TGStart.

(** Every operation of the worker. *)
Inductive Op : Type :=
  | OpCall (c : Call)
  | OpRunTestLoop (fuel : nat).

Definition run_op (o : Op) : M unit :=
  match o with
  | OpCall c => run_call c
  | OpRunTestLoop fuel => pytest_runtestloop fuel ;; ret tt
  end.

(** A sequence of operations, each started in the world the previous one
    left, however it ended. *)
Definition run_ops (ops : list Op) (w : World) : World :=
  foldl (fun w o => snd (run_op o w)) w ops.

End RunLoop.

(** ** Reading a trace *)

(** The tests handed to the engine, in order. *)
Definition runs (t : list Event) : list (Item * option Item) :=
  omap (fun e => match e with EvRun i n => Some (i, n) | _ => None end) t.

(** The event names of the requests sent, in order. *)
Definition requests (t : list Event) : list PyVal :=
  omap (fun e =>
          match e with EvSend m => assoc_get "_event_name" m | _ => None end) t.

Definition count_requests (name : string) (t : list Event) : nat :=
  length (List.filter (fun v => py_eq_str v name) (requests t)).

Definition is_run (e : Event) : bool :=
  match e with EvRun _ _ => true | _ => false end.

(** ** Vocabulary of the statements *)

(** The request of [send_event], and the world after one round trip. *)
Definition request (name : string) (kwargs : list (string * PyVal))
  : list (string * PyVal) :=
  assoc_set "_event_name" (VStr name) kwargs.

Definition exchanged (msg : list (string * PyVal)) (r : PyVal) (rest : list PyVal)
    (w : World) : World :=
  {| self := self w; inbox := rest;
     trace := trace w ++ [EvSend msg; EvRecv r]; heap := heap w |}.

(** What [send_event] makes of a reply. *)
Definition reply_outcome (r : PyVal) : Outcome PyVal :=
  if py_eq_str r "die" then Raise SystemExit
  else if py_eq_str r "ack" then Ret VNone
  else Ret r.

(** [m] respects [R]: the world after is related to the world before,
    however [m] ends. *)
Definition steps (R : World -> World -> Prop) {A} (m : M A) : Prop :=
  forall w, R w (snd (m w)).

(** The message [handle_quit] sends. *)
Definition quit_message : list (string * PyVal) :=
  request "message"
    [("message", VStr "shutting down after the current test due to QUIT signal");
     ("markup", VDict [])].

(** The request of [_iter_nodes]. *)
Definition need_tests : list (string * PyVal) := request "need_tests" [].

(** What passes the socket while [_iter_nodes] receives the replies [rs]. *)
Definition exchanges (rs : list PyVal) : list Event :=
  rs ≫= (fun r => [EvSend need_tests; EvRecv r]).

(** The world after [_iter_nodes] has received [rs] and [rest] is still to
    come. *)
Definition pulled (rs rest : list PyVal) (w : World) : World :=
  {| self := self w; inbox := rest;
     trace := trace w ++ exchanges rs; heap := heap w |}.

(** [x1 :: l] cut into overlapping pairs, the last one without a
    successor. *)
Fixpoint chain_from {A} (x : A) (l : list A) : list (A * option A) :=
  match l with
  | [] => [(x, None)]
  | y :: l' => (x, Some y) :: chain_from y l'
  end.

Definition chain {A} (l : list A) : list (A * option A) :=
  match l with
  | [] => []
  | x :: l' => chain_from x l'
  end.

(** Steps that hand no test to the engine. *)
Definition quiet (w w' : World) : Prop :=
  exists t, trace w' = trace w ++ t /\ runs t = [].

(** Steps that leave the worker's fields as they are. *)
Definition same_self (w w' : World) : Prop := self w' = self w.

(** Steps after which the flag, if it was set, is still set. *)
Definition quit_kept (w w' : World) : Prop :=
  quit_signaled (self w) = true -> quit_signaled (self w') = true.

(** How the run loop ends when the test it has just run ended with [o] and
    the quit flag is set. *)
Definition loop_exit (o : Outcome unit) : Outcome bool :=
  match o with
  | Ret _ => Ret true
  | Raise e => Raise e
  | Blocked => Blocked
  | OutOfFuel => OutOfFuel
  end.

(** [iter_reaches key it w w1]: resumed in [w], the iterator [it] comes to
    evaluate [self.collection[key]], in world [w1].  Either [key] is next in
    the batch the [for] is running through, or the batch is used up and
    [key] leads the next reply. *)
Inductive iter_reaches (key : PyVal) : IterNodes -> World -> World -> Prop :=
  | reach_in_batch rest w :
      iter_reaches key (INBatch (key :: rest)) w w
  | reach_next_batch it r more rest w :
      it = INStart \/ it = INBatch [] ->
      inbox w = r :: more ->
      reply_outcome r = Ret r ->
      truthy r = true ->
      py_iter r = Some (key :: rest) ->
      iter_reaches key it w (pulled [r] more w).

(** The same for [_test_generator], which at its start takes two nodes
    from the iterator and afterwards one at a time. *)
Inductive gen_reaches (key : PyVal) : TestGen -> World -> World -> Prop :=
  | reach_first w w1 :
      iter_reaches key INStart w w1 ->
      gen_reaches key TGStart w w1
  | reach_second run_node node_iter w w1 w2 :
      iter_nodes_next INStart w = (Ret (Some run_node, node_iter), w1) ->
      iter_reaches key node_iter w1 w2 ->
      gen_reaches key TGStart w w2
  | reach_later run_node node_iter w w1 :
      iter_reaches key node_iter w w1 ->
      gen_reaches key (TGLoop run_node node_iter) w w1.

(** Within the events [t], the master has delivered node id [s] in a reply
    to a [need_tests] request: a request with that event name is followed
    directly by a reply that runs through [s]. *)
Definition received (t : list Event) (s : string) : Prop :=
  exists i msg reply l,
    t !! i = Some (EvSend msg) /\
    t !! S i = Some (EvRecv reply) /\
    assoc_get "_event_name" msg = Some (VStr "need_tests") /\
    py_iter reply = Some l /\
    VStr s ∈ l.

(** Every item of the collection is filed under its own node id, as
    [pytest_collection_finish] files them. *)
Definition coll_wf (w : World) : Prop :=
  forall c k it,
    collection (self w) = Some c -> c !! k = Some it -> nodeid it = k.

Definition wf_kept (w w' : World) : Prop := coll_wf w -> coll_wf w'.

(** Both tests of a pair, the one to run and the one announced as next,
    have been received within [t]. *)
Definition pair_received (t : list Event) (p : Item * option Item) : Prop :=
  received t (nodeid p.1) /\
  forall n, p.2 = Some n -> received t (nodeid n).

(** What a suspended generator holds has been received within [t]. *)
Definition iter_ok (t : list Event) (it : IterNodes) : Prop :=
  match it with
  | INBatch rest => forall s, VStr s ∈ rest -> received t s
  | _ => True
  end.

Definition gen_ok (t : list Event) (g : TestGen) : Prop :=
  match g with
  | TGLoop run_node node_iter =>
      received t (nodeid run_node) /\ iter_ok t node_iter
  | _ => True
  end.

(** Steps that leave the first [n] objects of the store, and everything
    outside the store, as they are. *)
Definition frame (n : nat) (w w' : World) : Prop :=
  self w' = self w /\ inbox w' = inbox w /\ trace w' = trace w /\
  take n (heap w') = take n (heap w).

(** What [serialize_report] makes of [longrepr] before the loop, and of
    the field [name] in the loop. *)
Definition longrepr_out (v : PyVal) : PyVal :=
  if has_toterminal v then VStr (py_str v) else v.

Definition field_out (name : string) (v : PyVal) : PyVal :=
  if is_local v then VStr (py_str v)
  else if String.eqb name "result" then VNone
  else v.

(** One turn of the loop of [serialize_report], on the dictionary. *)
Definition field_step (d : gmap string PyVal) (name : string) : gmap string PyVal :=
  alter (field_out name) name d.

(** ** A worker to run things on *)

Definition item_a : Item := {| nodeid := "a"; body := 1 |}.
Definition item_b : Item := {| nodeid := "b"; body := 2 |}.
Definition item_c : Item := {| nodeid := "c"; body := 3 |}.

Definition session_abc : Session := {| items := [item_a; item_b; item_c] |}.

(** A batch of node ids as the master sends it. *)
Definition ids (l : list string) : PyVal := VList (VStr <$> l).

(** The worker after [__init__] and a finished collection of
    [session_abc]. *)
Definition collected : SlaveManager :=
  with_collection (collect (items session_abc))
    (with_session session_abc (init false "slave0" "https://appliance")).

(** A world at rest: nothing observed yet, no objects, and the replies the
    master is going to give. *)
Definition world_of (s : SlaveManager) (replies : list PyVal) : World :=
  {| self := s; inbox := replies; trace := []; heap := [] |}.

(** A failing report as the engine builds it. *)
Definition failed_report : gmap string PyVal :=
  <["longrepr" := VRepr "assert 1 == 2"]>
    (<["result" := VObj 7]>
       (<["fspath" := VLocal "/tests/test_x.py"]>
          (<["outcome" := VStr "failed"]> ∅))).

(** An engine that announces each test and reports it as failed, on a
    machine where the quit signal arrives in the middle of test [a]. *)
Definition quit_during_a (item : Item) (nextitem : option Item) : list Call :=
  [CLogStart (VStr (nodeid item)) VNone]
  ++ (if String.eqb (nodeid item) "a" then [CHandleQuit] else [])
  ++ [CLogReport failed_report].

(** A report that carries the test item itself. *)
Definition report_with_item : gmap string PyVal :=
  <["longrepr" := VNone]> (<["item" := VObj 7]> (<["outcome" := VStr "passed"]> ∅)).

(** ** Ways to end, and what an operation adds to the trace *)

Inductive Status : Type :=
  | SRet
  | SRaise (e : Exn)
  | SBlocked
  | SFuel.

Definition status {A} (o : Outcome A) : Status :=
  match o with
  | Ret _ => SRet
  | Raise e => SRaise e
  | Blocked => SBlocked
  | OutOfFuel => SFuel
  end.

(** The replies read, in order. *)
Definition recvs (t : list Event) : list PyVal :=
  omap (fun e => match e with EvRecv r => Some r | _ => None end) t.

(** [m] touches neither the socket nor the engine, and does not end the
    process. *)
Definition silent {A} (m : M A) : Prop :=
  forall w,
    trace (snd (m w)) = trace w /\
    inbox (snd (m w)) = inbox w /\
    (status (fst (m w)) = SRet \/
     exists e, e <> SystemExit /\ status (fst (m w)) = SRaise e).

(** Whatever the world, [m] adds to the trace some events [t] that satisfy
    [P] together with the way [m] ends, and the replies it reads are the
    next replies of the master, in order. *)
Definition emits {A} (P : list Event -> Status -> Prop) (m : M A) : Prop :=
  forall w,
    exists t,
      trace (snd (m w)) = trace w ++ t /\
      inbox w = recvs t ++ inbox (snd (m w)) /\
      P t (status (fst (m w))).

(** The discipline of the request socket: a request only when none is
    outstanding, a reply only to an outstanding request, and a test only
    between exchanges.  [handshake pending t] is the state after [t], if [t]
    keeps to the discipline. *)
Fixpoint handshake (pending : bool) (t : list Event) : option bool :=
  match t with
  | [] => Some pending
  | EvSend _ :: t' => if pending then None else handshake true t'
  | EvRecv _ :: t' => if pending then handshake false t' else None
  | EvRun _ _ :: t' => if pending then None else handshake false t'
  end.

Definition is_blocked (s : Status) : bool :=
  match s with SBlocked => true | _ => false end.

Definition keeps_handshake (t : list Event) (s : Status) : Prop :=
  handshake false t = Some (is_blocked s).

(** A reply ["die"] is the last event, and it is there exactly when the
    operation ends in [SystemExit]. *)
Definition die_is_final (t : list Event) (s : Status) : Prop :=
  (forall i, t !! i = Some (EvRecv (VStr "die")) -> S i = length t) /\
  (EvRecv (VStr "die") ∈ t <-> s = SRaise SystemExit).

(** ** The order of the tests *)



(** The node ids a suspended generator still holds: the node it will hand
    out next, and the rest of the batch. *)
Definition iter_pending (it : IterNodes) : list PyVal :=
  match it with
  | INBatch rest => rest
  | _ => []
  end.

Definition gen_pending (g : TestGen) : list PyVal :=
  match g with
  | TGLoop run_node node_iter => VStr (nodeid run_node) :: iter_pending node_iter
  | _ => []
  end.

(** The messages [shutdown] sends. *)
Definition farewell_message : list (string * PyVal) :=
  request "message" [("message", VStr "shutting down"); ("markup", VDict [])].

Definition shutdown_message : list (string * PyVal) := request "shutdown" [].

(** The request of [pytest_collection_finish] for the node ids [keys]. *)
Definition collectionfinish_message (keys : list string) : list (string * PyVal) :=
  request "collectionfinish" [("node_ids", VList (VStr <$> keys))].


(** ** How long the run loop can go on *)

(** Each reply still to come can start one more turn of the loop by
    itself, and one more for every node id it carries. *)
Fixpoint replies_cost (l : list PyVal) : nat :=
  match l with
  | [] => 0
  | r :: l' => S (length (default [] (py_iter r))) + replies_cost l'
  end.

Definition budget (g : TestGen) (replies : list PyVal) : nat :=
  length (gen_pending g) + replies_cost replies.

Definition not_out_of_fuel (t : list Event) (s : Status) : Prop := s <> SFuel.

(** * Basic facts *)

Lemma py_eq_str_true v s : py_eq_str v s = true <-> v = VStr s.
Proof.
  destruct v; simpl; try (split; [discriminate | congruence]).
  rewrite String.eqb_eq. split; congruence.
Qed.

Lemma py_eq_str_false v s : py_eq_str v s = false <-> v <> VStr s.
Proof.
  rewrite <- py_eq_str_true. destruct (py_eq_str v s); split; congruence.
Qed.

(** A true value that can be iterated has a first element. *)
Lemma truthy_iter_nonempty v l : truthy v = true -> py_iter v = Some l -> l <> [].
Proof.
  destruct v; simpl; try discriminate; intros Ht [= <-].
  - destruct s; [discriminate | done].
  - destruct l0; [discriminate | done].
  - destruct d; [discriminate | done].
Qed.

Lemma dict_json_ok_set k v d :
  json_ok v = true -> dict_json_ok d = true ->
  dict_json_ok (assoc_set k v d) = true.
Proof.
  unfold dict_json_ok. simpl. intros Hv.
  induction d as [| [k' v'] d IH]; simpl.
  - by rewrite Hv.
  - intros [Hv' Hd]%andb_prop. destruct (String.eqb k' k); simpl.
    + by rewrite Hv, Hd.
    + by rewrite Hv', IH.
Qed.

Lemma assoc_get_set k v d : assoc_get k (assoc_set k v d) = Some v.
Proof.
  induction d as [| [k' v'] d IH]; simpl.
  - by rewrite String.eqb_refl.
  - destruct (String.eqb k' k) eqn:Hk; simpl; by rewrite Hk.
Qed.

Lemma send_event_reply name kwargs r rest w :
  dict_json_ok kwargs = true ->
  inbox w = r :: rest ->
  send_event name kwargs w
  = (reply_outcome r, exchanged (request name kwargs) r rest w).
Proof.
  intros Hok Hin. unfold send_event, bind, sock_send_json.
  rewrite dict_json_ok_set by done.
  unfold modify, sock_recv_json. simpl. rewrite Hin.
  unfold reply_outcome, exchanged, log_event, set_inbox, request. simpl.
  rewrite <- app_assoc. simpl.
  destruct (py_eq_str r "die"); [done |].
  destruct (py_eq_str r "ack"); done.
Qed.

Lemma send_event_blocked name kwargs w :
  dict_json_ok kwargs = true ->
  inbox w = [] ->
  send_event name kwargs w
  = (Blocked, log_event (EvSend (request name kwargs)) w).
Proof.
  intros Hok Hin. unfold send_event, bind, sock_send_json.
  rewrite dict_json_ok_set by done.
  unfold modify, sock_recv_json. simpl. by rewrite Hin.
Qed.

Lemma send_event_unsendable name kwargs w :
  dict_json_ok (request name kwargs) = false ->
  send_event name kwargs w = (Raise TypeError, w).
Proof.
  intros Hok. unfold send_event, bind, sock_send_json.
  fold (request name kwargs). by rewrite Hok.
Qed.

(** * Relations every step respects

    A relation between the world before and the world after that is
    reflexive and transitive and respected by the primitive updates is
    respected by every method built from them. *)

Section Steps.

Variable R : World -> World -> Prop.
Hypothesis R_refl : forall w, R w w.
Hypothesis R_trans : forall w1 w2 w3, R w1 w2 -> R w2 w3 -> R w1 w3.

Lemma steps_ret {A} (a : A) : steps R (ret a).
Proof. intros w. apply R_refl. Qed.

Lemma steps_raise {A} (e : Exn) : steps R (@raise A e).
Proof. intros w. apply R_refl. Qed.

Lemma steps_gets {A} (f : World -> A) : steps R (gets f).
Proof. intros w. apply R_refl. Qed.

Lemma steps_out_of_fuel {A} : steps R (@out_of_fuel A).
Proof. intros w. apply R_refl. Qed.

Lemma steps_modify (f : World -> World) :
  (forall w, R w (f w)) -> steps R (modify f).
Proof. intros Hf w. apply Hf. Qed.

Lemma steps_bind {A B} (m : M A) (k : A -> M B) :
  steps R m -> (forall a, steps R (k a)) -> steps R (bind m k).
Proof.
  intros Hm Hk w. unfold bind. specialize (Hm w).
  destruct (m w) as [[a | e | | ] w']; simpl in *; try done.
  eapply R_trans; [exact Hm | apply Hk].
Qed.

Lemma steps_for_each {A} (l : list A) (body : A -> M unit) :
  (forall x, steps R (body x)) -> steps R (for_each l body).
Proof.
  intros Hb. induction l as [| x l IH]; simpl.
  - apply steps_ret.
  - apply steps_bind; [apply Hb | intros _; exact IH].
Qed.

Hypothesis R_log : forall e w, is_run e = false -> R w (log_event e w).
Hypothesis R_inbox : forall l w, R w (set_inbox l w).
Hypothesis R_heap : forall h w, R w (set_heap h w).
Hypothesis R_quit : forall w, R w (set_self (with_quit true) w).
Hypothesis R_session : forall s w, R w (set_self (with_session s) w).
Hypothesis R_collect :
  forall l w, R w (set_self (with_collection (collect l)) w).

Lemma steps_send_event name kwargs : steps R (send_event name kwargs).
Proof.
  unfold send_event. apply steps_bind.
  - unfold sock_send_json. destruct (dict_json_ok _).
    + apply steps_modify. intros w. by apply R_log.
    + apply steps_raise.
  - intros _. apply steps_bind.
    + intros w. unfold sock_recv_json. destruct (inbox w) as [| r rest]; simpl.
      * apply R_refl.
      * eapply R_trans; [apply R_inbox | by apply R_log].
    + intros recv. destruct (py_eq_str recv "die"); [apply steps_raise |].
      destruct (negb _); apply steps_ret.
Qed.

Lemma steps_message text kwargs : steps R (message text kwargs).
Proof.
  unfold message. apply steps_bind; [apply steps_send_event |].
  intros _. apply steps_ret.
Qed.

Lemma steps_pytest_collection_finish s : steps R (pytest_collection_finish s).
Proof.
  unfold pytest_collection_finish.
  apply steps_bind; [by apply steps_modify | intros _].
  apply steps_bind; [by apply steps_modify | intros _].
  apply steps_bind; [apply steps_gets | intros c].
  apply steps_bind; [apply steps_send_event | intros _; apply steps_ret].
Qed.

Lemma steps_pytest_runtest_logstart id location :
  steps R (pytest_runtest_logstart id location).
Proof.
  unfold pytest_runtest_logstart.
  apply steps_bind; [apply steps_send_event | intros _; apply steps_ret].
Qed.

Lemma steps_alloc fields : steps R (alloc fields).
Proof. intros w. apply R_heap. Qed.

Lemma steps_dict_set d name v : steps R (dict_set d name v).
Proof. apply steps_modify. intros w. apply R_heap. Qed.

Lemma steps_dict_get d name : steps R (dict_get d name).
Proof.
  intros w. unfold dict_get. destruct (_ ≫= _); apply R_refl.
Qed.

Lemma steps_getattr obj name : steps R (getattr obj name).
Proof.
  intros w. unfold getattr.
  destruct (heap w !! obj) as [d |]; [| apply R_refl].
  destruct (d !! name); apply R_refl.
Qed.

Lemma steps_serialize_report rep : steps R (serialize_report rep).
Proof.
  unfold serialize_report. apply steps_bind.
  { intros w. unfold dict_copy. destruct (heap w !! rep); [| apply R_refl].
    apply steps_alloc. }
  intros d. apply steps_bind; [apply steps_getattr | intros longrepr].
  apply steps_bind.
  { destruct (has_toterminal longrepr); apply steps_dict_set. }
  intros _. apply steps_bind; [apply steps_gets | intros names].
  apply steps_bind; [| intros _; apply steps_ret].
  apply steps_for_each. intros name. unfold serialize_field.
  apply steps_bind; [apply steps_dict_get | intros v].
  destruct (is_local v); [apply steps_dict_set |].
  destruct (String.eqb name "result"); [apply steps_dict_set | apply steps_ret].
Qed.

Lemma steps_pytest_runtest_logreport report :
  steps R (pytest_runtest_logreport report).
Proof.
  unfold pytest_runtest_logreport.
  apply steps_bind; [apply steps_serialize_report | intros d].
  apply steps_bind; [apply steps_gets | intros v].
  apply steps_bind; [apply steps_send_event | intros _; apply steps_ret].
Qed.

Lemma steps_pytest_internalerror excrepr : steps R (pytest_internalerror excrepr).
Proof.
  unfold pytest_internalerror. destruct (last _); [| apply steps_raise].
  apply steps_bind; [apply steps_send_event | intros _; apply steps_ret].
Qed.

Lemma steps_handle_quit : steps R handle_quit.
Proof.
  unfold handle_quit. apply steps_bind; [apply steps_message | intros _].
  by apply steps_modify.
Qed.

Lemma steps_shutdown : steps R shutdown.
Proof.
  unfold shutdown. apply steps_bind; [apply steps_message | intros _].
  apply steps_bind; [apply steps_send_event | intros _].
  by apply steps_modify.
Qed.

Lemma steps_run_call c : steps R (run_call c).
Proof.
  destruct c; simpl.
  - apply steps_bind; [apply steps_send_event | intros _; apply steps_ret].
  - apply steps_message.
  - apply steps_pytest_collection_finish.
  - apply steps_pytest_runtest_logstart.
  - apply steps_bind; [apply steps_alloc | intros rep].
    apply steps_pytest_runtest_logreport.
  - apply steps_pytest_internalerror.
  - apply steps_shutdown.
  - apply steps_handle_quit.
  - apply steps_shutdown.
Qed.

Lemma steps_collection_getitem key : steps R (collection_getitem key).
Proof.
  intros w. unfold collection_getitem.
  destruct (collection (self w)) as [c |]; [| apply R_refl].
  destruct key; try apply R_refl.
  destruct (c !! s); apply R_refl.
Qed.

Lemma steps_lookup id rest :
  steps R (do it <- collection_getitem id ; ret (Some it, INBatch rest)).
Proof.
  apply steps_bind; [apply steps_collection_getitem |].
  intros it. apply steps_ret.
Qed.

Lemma steps_iter_nodes_pull : steps R iter_nodes_pull.
Proof.
  unfold iter_nodes_pull.
  apply steps_bind; [apply steps_send_event | intros node_ids].
  destruct (negb _); [apply steps_ret |].
  destruct (py_iter node_ids) as [[| id rest] |];
    [apply steps_ret | apply steps_lookup | apply steps_raise].
Qed.

Lemma steps_iter_nodes_next g : steps R (iter_nodes_next g).
Proof.
  destruct g as [| [| id rest] |]; simpl;
    auto using steps_ret, steps_iter_nodes_pull, steps_lookup.
Qed.

Lemma steps_pair_up run_node node_iter : steps R (pair_up run_node node_iter).
Proof.
  unfold pair_up. apply steps_bind; [apply steps_iter_nodes_next |].
  intros [[next_node |] node_iter']; apply steps_ret.
Qed.

Lemma steps_test_generator_next g : steps R (test_generator_next g).
Proof.
  destruct g; simpl; auto using steps_ret, steps_pair_up.
  apply steps_bind; [apply steps_iter_nodes_pull |].
  intros [[run_node |] node_iter]; auto using steps_ret, steps_pair_up.
Qed.

Lemma steps_drain fuel g : steps R (drain fuel g).
Proof.
  revert g. induction fuel as [| fuel IH]; intros g; simpl.
  - apply steps_out_of_fuel.
  - apply steps_bind; [apply steps_test_generator_next |].
    intros [[p |] g']; [| apply steps_ret].
    apply steps_bind; [apply IH | intros ps; apply steps_ret].
Qed.

Hypothesis R_log_run : forall i n w, R w (log_event (EvRun i n) w).

Variable runtest_protocol : Item -> option Item -> list Call.

Lemma steps_hook_pytest_runtest_protocol item nextitem :
  steps R (hook_pytest_runtest_protocol runtest_protocol item nextitem).
Proof.
  unfold hook_pytest_runtest_protocol.
  apply steps_bind; [by apply steps_modify | intros _].
  apply steps_for_each, steps_run_call.
Qed.

Lemma steps_runtestloop_from fuel g :
  steps R (runtestloop_from runtest_protocol fuel g).
Proof.
  revert g. induction fuel as [| fuel IH]; intros g; simpl.
  - apply steps_out_of_fuel.
  - apply steps_bind; [apply steps_test_generator_next |].
    intros [[[item nextitem] |] g']; [| apply steps_ret].
    apply steps_bind; [apply steps_gets | intros co].
    apply steps_bind.
    { destruct co; [apply steps_message |].
      apply steps_hook_pytest_runtest_protocol. }
    intros _. apply steps_bind; [apply steps_gets | intros quit].
    destruct quit; [apply steps_ret | apply IH].
Qed.

Lemma steps_run_op o : steps R (run_op runtest_protocol o).
Proof.
  destruct o as [c | fuel]; simpl; [apply steps_run_call |].
  apply steps_bind; [apply steps_runtestloop_from | intros _; apply steps_ret].
Qed.

Lemma run_ops_related ops w : R w (run_ops runtest_protocol ops w).
Proof.
  revert w. induction ops as [| o ops IH]; intros w; simpl.
  - apply R_refl.
  - eapply R_trans; [apply steps_run_op | apply IH].
Qed.

End Steps.

(** * Running the monad *)

Lemma bind_ret {A B} (m : M A) (k : A -> M B) w a w' :
  m w = (Ret a, w') -> bind m k w = k a w'.
Proof. intros H. unfold bind. by rewrite H. Qed.

Lemma bind_raise {A B} (m : M A) (k : A -> M B) w e w' :
  m w = (Raise e, w') -> bind m k w = (Raise e, w').
Proof. intros H. unfold bind. by rewrite H. Qed.

Lemma bind_blocked {A B} (m : M A) (k : A -> M B) w w' :
  m w = (Blocked, w') -> bind m k w = (Blocked, w').
Proof. intros H. unfold bind. by rewrite H. Qed.

Lemma falsy_reply_outcome r : truthy r = false -> reply_outcome r = Ret r.
Proof.
  intros Hf. unfold reply_outcome.
  destruct (py_eq_str r "die") eqn:Hd.
  { apply py_eq_str_true in Hd. by subst. }
  destruct (py_eq_str r "ack") eqn:Ha; [| done].
  apply py_eq_str_true in Ha. by subst.
Qed.

(** * The reply decides what [send_event] gives *)

(** C2.  Whatever the event name and the payload, once the request has gone
    out and the master's reply [r] has come in, [send_event] ends as [r]
    says: on ["die"] it raises [SystemExit]; on ["ack"] it returns nothing
    ([None]); on anything else it returns [r] itself.  In all three cases
    exactly this one request and this one reply have passed the socket. *)
Theorem send_event_by_reply name kwargs r rest w :
  dict_json_ok kwargs = true ->
  inbox w = r :: rest ->
  let after := exchanged (request name kwargs) r rest w in
  (r = VStr "die" -> send_event name kwargs w = (Raise SystemExit, after)) /\
  (r = VStr "ack" -> send_event name kwargs w = (Ret VNone, after)) /\
  (r <> VStr "die" -> r <> VStr "ack" ->
   send_event name kwargs w = (Ret r, after)).
Proof.
  intros Hok Hin after. rewrite (send_event_reply _ _ _ _ _ Hok Hin).
  fold after. unfold reply_outcome. repeat split.
  - by intros ->.
  - by intros ->.
  - intros Hd Ha. apply py_eq_str_false in Hd, Ha. by rewrite Hd, Ha.
Qed.

Lemma send_event_by_reply_witness :
  send_event "need_tests" [] (world_of collected [ids ["a"; "b"]])
  = (Ret (ids ["a"; "b"]),
     exchanged need_tests (ids ["a"; "b"]) [] (world_of collected [ids ["a"; "b"]])).
Proof.
  apply (send_event_by_reply "need_tests" [] (ids ["a"; "b"]) []
           (world_of collected [ids ["a"; "b"]])).
  - vm_compute. reflexivity.
  - reflexivity.
  - discriminate.
  - discriminate.
Defined.

(** * The quit flag *)

(** C7.  Once a sequence of operations has left the quit flag set, no
    further operations, whichever they are and however they end, leave it
    cleared. *)
Theorem quit_signaled_one_way protocol (ops more : list Op) w :
  quit_signaled (self (run_ops protocol ops w)) = true ->
  quit_signaled (self (run_ops protocol (ops ++ more) w)) = true.
Proof.
  intros Hq. unfold run_ops. rewrite foldl_app.
  fold (run_ops protocol ops w). fold (run_ops protocol more (run_ops protocol ops w)).
  revert Hq.
  apply (run_ops_related
    (fun w w' => quit_signaled (self w) = true -> quit_signaled (self w') = true));
    auto.
Qed.

Lemma quit_signaled_one_way_witness :
  quit_signaled (self (run_ops (fun _ _ => [CLogStart (VStr "a") VNone])
     ([OpCall CHandleQuit] ++
      [OpCall (CCollectionFinish session_abc); OpRunTestLoop 4; OpCall CShutdown])
     (world_of (init false "slave0" "https://appliance")
        [VStr "ack"; VStr "ack"; ids ["a"]; VStr "ack"; VStr "die"]))) = true.
Proof.
  apply (quit_signaled_one_way (fun _ _ => [CLogStart (VStr "a") VNone])
           [OpCall CHandleQuit]).
  vm_compute. reflexivity.
Defined.

(** C9, as the source has it.  [handle_quit] first sends one ["message"]
    event and waits for the reply to it; only if a reply other than
    ["die"] arrives does it set the quit flag.  Nothing else of the worker
    changes. *)
Theorem handle_quit_effect w :
  handle_quit w =
  match inbox w with
  | [] => (Blocked, log_event (EvSend quit_message) w)
  | r :: rest =>
      if py_eq_str r "die"
      then (Raise SystemExit, exchanged quit_message r rest w)
      else (Ret tt, set_self (with_quit true) (exchanged quit_message r rest w))
  end.
Proof.
  assert (Hok : dict_json_ok
    [("message", VStr "shutting down after the current test due to QUIT signal");
     ("markup", VDict [])] = true) by reflexivity.
  unfold handle_quit, message.
  destruct (inbox w) as [| r rest] eqn:Hin.
  - erewrite bind_blocked; [done |].
    erewrite bind_blocked; [done |].
    by apply send_event_blocked.
  - unfold bind at 1 2. rewrite (send_event_reply _ _ _ _ _ Hok Hin).
    fold quit_message. unfold reply_outcome.
    destruct (py_eq_str r "die"); [done |].
    destruct (py_eq_str r "ack"); done.
Qed.

(** C9, as stated, fails: on a worker whose master acknowledges, the
    handler leaves a world that differs from the one with just the flag
    set, because a request and a reply have passed the socket. *)
Lemma handle_quit_uses_channel :
  let w := world_of collected [VStr "ack"] in
  snd (handle_quit w) <> set_self (with_quit true) w /\
  trace (snd (handle_quit w)) = [EvSend quit_message; EvRecv (VStr "ack")] /\
  inbox w = [VStr "ack"] /\ inbox (snd (handle_quit w)) = [].
Proof.
  intros w. split; [| by vm_compute].
  intros H. apply (f_equal trace) in H. vm_compute in H. discriminate H.
Qed.

(** * The generators, step by step *)

Lemma collection_getitem_known c s it w :
  collection (self w) = Some c -> c !! s = Some it ->
  collection_getitem (VStr s) w = (Ret it, w).
Proof. intros Hc Hs. unfold collection_getitem. by rewrite Hc, Hs. Qed.

Lemma collection_getitem_unknown c s w :
  collection (self w) = Some c -> c !! s = None ->
  collection_getitem (VStr s) w = (Raise (KeyError (VStr s)), w).
Proof. intros Hc Hs. unfold collection_getitem. by rewrite Hc, Hs. Qed.

Lemma exchanged_pulled r rest w : exchanged need_tests r rest w = pulled [r] rest w.
Proof. reflexivity. Qed.

Lemma pulled_pulled rs1 rs2 mid rest w :
  pulled rs2 rest (pulled rs1 mid w) = pulled (rs1 ++ rs2) rest w.
Proof.
  unfold pulled, exchanges. simpl. by rewrite bind_app, app_assoc.
Qed.

Lemma need_tests_reply r rest w :
  inbox w = r :: rest ->
  send_event "need_tests" [] w = (reply_outcome r, pulled [r] rest w).
Proof. intros Hin. by apply send_event_reply. Qed.

Lemma iter_nodes_pull_stop r rest w :
  inbox w = r :: rest -> truthy r = false ->
  iter_nodes_pull w = (Ret (None, INDone), pulled [r] rest w).
Proof.
  intros Hin Hf. unfold iter_nodes_pull, bind.
  rewrite (need_tests_reply _ _ _ Hin), (falsy_reply_outcome _ Hf), Hf.
  reflexivity.
Qed.

Lemma ids_reply_outcome l : reply_outcome (ids l) = Ret (ids l).
Proof. reflexivity. Qed.

Lemma iter_nodes_pull_batch c s b it more w :
  collection (self w) = Some c -> c !! s = Some it ->
  inbox w = ids (s :: b) :: more ->
  iter_nodes_pull w
  = (Ret (Some it, INBatch (VStr <$> b)), pulled [ids (s :: b)] more w).
Proof.
  intros Hc Hs Hin. unfold iter_nodes_pull, bind.
  rewrite (need_tests_reply _ _ _ Hin), ids_reply_outcome. simpl.
  by rewrite (collection_getitem_known c s it).
Qed.

Lemma iter_nodes_next_known c s rest it w :
  collection (self w) = Some c -> c !! s = Some it ->
  iter_nodes_next (INBatch (VStr s :: rest)) w = (Ret (Some it, INBatch rest), w).
Proof.
  intros Hc Hs. simpl. unfold bind.
  by rewrite (collection_getitem_known c s it).
Qed.

Lemma drain_S fuel g :
  drain (S fuel) g =
  (do r <- test_generator_next g ;
   match r with
   | (None, _) => ret []
   | (Some p, g') => do ps <- drain fuel g' ; ret (p :: ps)
   end).
Proof. reflexivity. Qed.

Lemma runtestloop_from_S protocol fuel g :
  runtestloop_from protocol (S fuel) g =
  (do r <- test_generator_next g ;
   match r with
   | (None, _) => ret true
   | (Some (item, nextitem), g') =>
       do co <- gets (fun w => collectonly (self w)) ;
       (if co then message (nodeid item) []
        else hook_pytest_runtest_protocol protocol item nextitem) ;;
       do quit <- gets (fun w => quit_signaled (self w)) ;
       if quit then ret true else runtestloop_from protocol fuel g'
   end).
Proof. reflexivity. Qed.

(** * No work *)

(** C8.  When the master's first reply to [need_tests] is already false
    (empty), the generator yields no pair and the run loop returns [True]
    at once: nothing is raised, no test is run, and the one request and its
    reply are all that has happened. *)
Theorem no_work_is_not_an_error protocol fuel r rest w :
  inbox w = r :: rest ->
  truthy r = false ->
  drain (S fuel) TGStart w = (Ret [], pulled [r] rest w) /\
  pytest_runtestloop protocol (S fuel) w = (Ret true, pulled [r] rest w) /\
  runs (trace (pulled [r] rest w)) = runs (trace w).
Proof.
  intros Hin Hf.
  assert (Hgen : test_generator_next TGStart w
                 = (Ret (None, TGDone), pulled [r] rest w)).
  { simpl. unfold bind. by rewrite (iter_nodes_pull_stop _ _ _ Hin Hf). }
  repeat split.
  - rewrite drain_S. unfold bind. by rewrite Hgen.
  - unfold pytest_runtestloop. rewrite runtestloop_from_S. unfold bind.
    by rewrite Hgen.
  - unfold pulled, runs. simpl. rewrite omap_app. simpl. by rewrite app_nil_r.
Qed.

Lemma no_work_is_not_an_error_witness :
  pytest_runtestloop (fun _ _ => [CHandleQuit]) 1 (world_of collected [ids []])
  = (Ret true, pulled [ids []] [] (world_of collected [ids []])).
Proof.
  apply (no_work_is_not_an_error (fun _ _ => [CHandleQuit]) 0 (ids []) []
           (world_of collected [ids []])); reflexivity.
Defined.

(** * Overlapping pairs *)

Lemma chain_from_firsts {A} (x : A) l : (chain_from x l).*1 = x :: l.
Proof.
  revert x. induction l as [| y l IH]; intros x; simpl; [done |].
  by rewrite IH.
Qed.

Lemma chain_from_length {A} (x : A) l : length (chain_from x l) = S (length l).
Proof.
  revert x. induction l as [| y l IH]; intros x; simpl; [done |].
  by rewrite IH.
Qed.

Lemma chain_from_head {A} (x : A) l :
  exists n, chain_from x l !! 0 = Some (x, n).
Proof. destruct l; simpl; eauto. Qed.

Lemma chain_from_linked {A} (x : A) l i p q :
  chain_from x l !! i = Some p ->
  chain_from x l !! S i = Some q ->
  p.2 = Some q.1.
Proof.
  revert x i. induction l as [| y l IH]; intros x i Hp Hq.
  - destruct i; simpl in *; discriminate.
  - destruct i as [| i]; simpl in *.
    + injection Hp as <-. simpl.
      destruct (chain_from_head y l) as [n Hn]. rewrite Hn in Hq.
      by injection Hq as <-.
    + by eapply IH.
Qed.

Lemma chain_from_last_only {A} (x : A) l i p :
  chain_from x l !! i = Some p ->
  p.2 = None <-> S i = length (chain_from x l).
Proof.
  rewrite chain_from_length.
  revert x i. induction l as [| y l IH]; intros x i Hp.
  - destruct i; simpl in *; [| discriminate].
    injection Hp as <-. done.
  - destruct i as [| i]; simpl in *.
    + injection Hp as <-. simpl. split; [discriminate | lia].
    + rewrite (IH _ _ Hp). lia.
Qed.

Lemma chain_linked {A} (l : list A) i p q :
  chain l !! i = Some p -> chain l !! S i = Some q -> p.2 = Some q.1.
Proof. destruct l; [done |]. apply chain_from_linked. Qed.

Lemma chain_last_only {A} (l : list A) i p :
  chain l !! i = Some p -> p.2 = None <-> S i = length (chain l).
Proof. destruct l; [done |]. apply chain_from_last_only. Qed.

Lemma chain_firsts {A} (l : list A) : (chain l).*1 = l.
Proof. destruct l; [done |]. apply chain_from_firsts. Qed.

(** * Draining the generator *)

Section Drain.

Variable c : gmap string Item.
Variable stop : PyVal.
Variable rest : list PyVal.
Hypothesis stop_falsy : truthy stop = false.

Lemma drain_last fuel w : drain (S fuel) TGLast w = (Ret [], w).
Proof. reflexivity. Qed.

Lemma drain_from_loop batches :
  Forall (fun b => b <> []) batches ->
  forall cur its run fuel w,
    collection (self w) = Some c ->
    Forall2 (fun s it => c !! s = Some it) (cur ++ concat batches) its ->
    inbox w = (ids <$> batches) ++ stop :: rest ->
    S (length its) < fuel ->
    drain fuel (TGLoop run (INBatch (VStr <$> cur))) w
    = (Ret (chain_from run its),
       pulled ((ids <$> batches) ++ [stop]) rest w).
Proof.
  induction 1 as [| b batches Hb Hbs IHb].
  - (* no batch left: the rest of [cur], then the stop reply *)
    induction cur as [| s cur IHc]; intros its run fuel w Hc Hits Hin Hfuel.
    + apply Forall2_nil_inv_l in Hits as ->.
      destruct fuel as [| [| fuel]]; [simpl in Hfuel; lia .. |].
      rewrite drain_S. simpl in Hin. cbn [test_generator_next fmap list_fmap].
      unfold pair_up, bind. cbn [iter_nodes_next].
      rewrite (iter_nodes_pull_stop _ _ _ Hin stop_falsy). cbn [ret].
      by rewrite drain_last.
    + apply Forall2_cons_inv_l in Hits as (it & its' & Hs & Hits & ->).
      destruct fuel as [| fuel]; [simpl in Hfuel; lia |].
      rewrite drain_S. cbn [test_generator_next fmap list_fmap].
      unfold pair_up, bind at 1 2.
      rewrite (iter_nodes_next_known c s _ it w Hc Hs). cbn [ret].
      unfold bind.
      rewrite (IHc its' it fuel w Hc Hits Hin) by (simpl in Hfuel; lia).
      reflexivity.
  - (* a batch [b] is still to come *)
    induction cur as [| s cur IHc]; intros its run fuel w Hc Hits Hin Hfuel.
    + destruct b as [| s b]; [done |].
      simpl in Hits.
      apply Forall2_cons_inv_l in Hits as (it & its' & Hs & Hits & ->).
      destruct fuel as [| fuel]; [simpl in Hfuel; lia |].
      rewrite drain_S. cbn [test_generator_next fmap list_fmap].
      unfold pair_up, bind at 1 2. cbn [iter_nodes_next].
      simpl in Hin.
      rewrite (iter_nodes_pull_batch c s b it _ w Hc Hs Hin). cbn [ret].
      unfold bind.
      rewrite (IHb b its' it fuel (pulled [ids (s :: b)] _ w)); try done.
      * by rewrite pulled_pulled.
      * simpl in Hfuel. lia.
    + simpl in Hits.
      apply Forall2_cons_inv_l in Hits as (it & its' & Hs & Hits & ->).
      destruct fuel as [| fuel]; [simpl in Hfuel; lia |].
      rewrite drain_S. cbn [test_generator_next fmap list_fmap].
      unfold pair_up, bind at 1 2.
      rewrite (iter_nodes_next_known c s _ it w Hc Hs). cbn [ret].
      unfold bind.
      rewrite (IHc its' it fuel w Hc Hits Hin) by (simpl in Hfuel; lia).
      reflexivity.
Qed.

End Drain.

Lemma bind_same {A B} (m1 m2 : M A) (k : A -> M B) w1 w2 :
  m1 w1 = m2 w2 -> bind m1 k w1 = bind m2 k w2.
Proof. intros H. unfold bind. by rewrite H. Qed.

Lemma test_generator_start it g w w1 :
  iter_nodes_pull w = (Ret (Some it, g), w1) ->
  test_generator_next TGStart w = test_generator_next (TGLoop it g) w1.
Proof. intros H. simpl. unfold bind at 1. by rewrite H. Qed.

Lemma all_known {A B} (f : A -> option B) l :
  Forall (fun x => is_Some (f x)) l ->
  exists k, Forall2 (fun x y => f x = Some y) l k.
Proof.
  induction 1 as [| x l [y Hy] _ [k IH]].
  - by exists [].
  - exists (y :: k). by constructor.
Qed.

Lemma drain_from_start c stop rest batches its fuel w :
  truthy stop = false ->
  collection (self w) = Some c ->
  Forall (fun b => b <> []) batches ->
  Forall2 (fun s it => c !! s = Some it) (concat batches) its ->
  inbox w = (ids <$> batches) ++ stop :: rest ->
  length its < fuel ->
  drain fuel TGStart w
  = (Ret (chain its), pulled ((ids <$> batches) ++ [stop]) rest w).
Proof.
  intros Hstop Hc Hne Hits Hin Hfuel.
  destruct fuel as [| fuel]; [lia |].
  destruct Hne as [| b batches Hb Hne].
  - apply Forall2_nil_inv_l in Hits as ->.
    rewrite drain_S. simpl. unfold bind.
    by rewrite (iter_nodes_pull_stop _ _ _ Hin Hstop).
  - destruct b as [| s b]; [done |]. simpl in Hits.
    apply Forall2_cons_inv_l in Hits as (it & its' & Hs & Hits & ->).
    rewrite fmap_cons, <- app_comm_cons in Hin.
    pose proof (iter_nodes_pull_batch c s b it _ w Hc Hs Hin) as Hpull.
    rewrite drain_S.
    rewrite (bind_same _ _ _ _ _ (test_generator_start _ _ _ _ Hpull)).
    rewrite <- drain_S.
    rewrite (drain_from_loop c stop rest Hstop batches Hne b its' it (S fuel)
               (pulled [ids (s :: b)] ((ids <$> batches) ++ stop :: rest) w)
               Hc Hits eq_refl).
    + by rewrite pulled_pulled, fmap_cons.
    + simpl in Hfuel. lia.
Qed.

Lemma requests_exchanges rs :
  requests (exchanges rs) = replicate (length rs) (VStr "need_tests").
Proof.
  induction rs as [| r rs IH]; [done |].
  change (exchanges (r :: rs))
    with (EvSend need_tests :: EvRecv r :: exchanges rs).
  change (requests (EvSend need_tests :: EvRecv r :: exchanges rs))
    with (VStr "need_tests" :: requests (exchanges rs)).
  by rewrite IH.
Qed.

Lemma count_requests_exchanges rs :
  count_requests "need_tests" (exchanges rs) = length rs.
Proof.
  unfold count_requests. rewrite requests_exchanges.
  induction rs as [| r rs IH]; [done |]. simpl. by rewrite IH.
Qed.

(** * The pairs the generator yields *)

(** C1.  Let the master answer [need_tests] with the non-empty batches
    [batches], all of collected node ids, and then with the false reply
    [stop].  Run to its end, the generator yields one pair per node id
    received, in the order received, whose first component is the item
    collected under that id; each pair's second component is the first
    component of the pair after it; a pair has no successor ([None]) exactly
    when it is the last one; and the generator has sent one [need_tests]
    request per batch plus the one answered by [stop]. *)
Theorem work_pairs_chain c (batches : list (list string)) stop rest fuel w :
  collection (self w) = Some c ->
  Forall (fun b => b <> []) batches ->
  Forall (fun s => is_Some (c !! s)) (concat batches) ->
  truthy stop = false ->
  inbox w = (ids <$> batches) ++ stop :: rest ->
  length (concat batches) < fuel ->
  exists pairs w',
    drain fuel TGStart w = (Ret pairs, w') /\
    Forall2 (fun s p => c !! s = Some p.1) (concat batches) pairs /\
    (forall i p q,
       pairs !! i = Some p -> pairs !! S i = Some q -> p.2 = Some q.1) /\
    (forall i p, pairs !! i = Some p -> p.2 = None <-> S i = length pairs) /\
    inbox w' = rest /\
    exists new,
      trace w' = trace w ++ new /\
      count_requests "need_tests" new = S (length batches).
Proof.
  intros Hc Hne Hknown Hstop Hin Hfuel.
  destruct (all_known _ _ Hknown) as [its Hits].
  exists (chain its), (pulled ((ids <$> batches) ++ [stop]) rest w).
  split; [| split; [| split; [| split; [| split]]]].
  - apply (drain_from_start c); try done.
    by rewrite <- (Forall2_length _ _ _ Hits).
  - rewrite <- (chain_firsts its) in Hits at 1.
    apply Forall2_fmap_r in Hits. exact Hits.
  - apply chain_linked.
  - apply chain_last_only.
  - reflexivity.
  - eexists. split; [reflexivity |].
    rewrite count_requests_exchanges, length_app, length_fmap. simpl. lia.
Qed.

Lemma work_pairs_chain_witness :
  let w := world_of collected [ids ["a"; "b"]; ids ["c"]; ids []] in
  exists pairs w',
    drain 4 TGStart w = (Ret pairs, w') /\
    pairs = [(item_a, Some item_b); (item_b, Some item_c); (item_c, None)] /\
    count_requests "need_tests" (trace w') = 3.
Proof.
  intros w.
  destruct (work_pairs_chain (collect (items session_abc))
              [["a"; "b"]; ["c"]] (ids []) [] 4 w)
    as (pairs & w' & Hd & _ & _ & _ & _ & new & Htr & Hn).
  - reflexivity.
  - repeat constructor; discriminate.
  - repeat constructor; by eexists.
  - reflexivity.
  - reflexivity.
  - simpl. lia.
  - exists pairs, w'. split; [exact Hd |]. split.
    + apply (f_equal fst) in Hd. vm_compute in Hd.
      injection Hd as <-. reflexivity.
    + rewrite Htr. exact Hn.
Defined.

(** * What the generators and the calls leave alone *)

Lemma quiet_refl w : quiet w w.
Proof. exists []. by rewrite app_nil_r. Qed.

Lemma quiet_trans w1 w2 w3 : quiet w1 w2 -> quiet w2 w3 -> quiet w1 w3.
Proof.
  intros (t1 & H1 & Hr1) (t2 & H2 & Hr2). exists (t1 ++ t2). split.
  - by rewrite H2, H1, app_assoc.
  - unfold runs in *. by rewrite omap_app, Hr1, Hr2.
Qed.

Lemma quiet_log e w : is_run e = false -> quiet w (log_event e w).
Proof. intros He. exists [e]. split; [done |]. by destruct e. Qed.

Lemma quiet_same_trace w w' : trace w' = trace w -> quiet w w'.
Proof. intros H. exists []. by rewrite app_nil_r. Qed.

Lemma quiet_runs w w' : quiet w w' -> runs (trace w') = runs (trace w).
Proof.
  intros (t & -> & Hr). unfold runs in *. by rewrite omap_app, Hr, app_nil_r.
Qed.

Lemma run_call_quiet c : steps quiet (run_call c).
Proof.
  apply steps_run_call;
    [exact quiet_refl | exact quiet_trans | exact quiet_log
    | intros; by apply quiet_same_trace ..].
Qed.

Lemma test_generator_next_quiet g : steps quiet (test_generator_next g).
Proof.
  apply steps_test_generator_next;
    [exact quiet_refl | exact quiet_trans | exact quiet_log
    | intros; by apply quiet_same_trace ..].
Qed.

Lemma calls_quiet l : steps quiet (for_each l run_call).
Proof.
  apply steps_for_each;
    [exact quiet_refl | exact quiet_trans | exact run_call_quiet].
Qed.

Lemma iter_nodes_next_self g : steps same_self (iter_nodes_next g).
Proof.
  apply steps_iter_nodes_next; unfold same_self; try done.
  intros w1 w2 w3 H1 H2. by rewrite H2.
Qed.

Lemma test_generator_next_self g : steps same_self (test_generator_next g).
Proof.
  apply steps_test_generator_next; unfold same_self; try done.
  intros w1 w2 w3 H1 H2. by rewrite H2.
Qed.

Lemma calls_keep_quit l : steps quit_kept (for_each l run_call).
Proof.
  assert (Hrefl : forall w, quit_kept w w) by (intros w H; exact H).
  assert (Htrans : forall w1 w2 w3,
             quit_kept w1 w2 -> quit_kept w2 w3 -> quit_kept w1 w3)
    by (unfold quit_kept; auto).
  apply steps_for_each; [done | done |].
  intros c. apply steps_run_call; try done; by unfold quit_kept.
Qed.

Lemma for_each_app {A} (l1 l2 : list A) (body : A -> M unit) w :
  for_each (l1 ++ l2) body w = (for_each l1 body ;; for_each l2 body) w.
Proof.
  revert w. induction l1 as [| x l1 IH]; intros w; simpl; [done |].
  unfold bind in *. by destruct (body x w) as [[[] | e | | ] w1].
Qed.

(** * Quitting *)

Lemma hook_run protocol item nextitem w :
  hook_pytest_runtest_protocol protocol item nextitem w
  = for_each (protocol item nextitem) run_call
      (log_event (EvRun item nextitem) w).
Proof. reflexivity. Qed.

(** C6.  Take any point of the run loop at which the generator hands out
    the next test.  If the quit flag is set after part [pre] of what happens
    during that test, the rest [post] of the test still happens; the loop
    then ends where the test ended, with [True] when the test returned, and
    the test in flight is the last one handed to the engine. *)
Theorem quit_lets_test_finish protocol fuel g w item nextitem g1 w1
    pre post w2 o w3 :
  test_generator_next g w = (Ret (Some (item, nextitem), g1), w1) ->
  collectonly (self w1) = false ->
  protocol item nextitem = pre ++ post ->
  for_each pre run_call (log_event (EvRun item nextitem) w1) = (Ret tt, w2) ->
  quit_signaled (self w2) = true ->
  for_each post run_call w2 = (o, w3) ->
  runtestloop_from protocol (S fuel) g w = (loop_exit o, w3) /\
  runs (trace w3) = runs (trace w) ++ [(item, nextitem)].
Proof.
  intros Hgen Hco Hsplit Hpre Hquit Hpost. split.
  - rewrite runtestloop_from_S. unfold bind at 1. rewrite Hgen.
    unfold bind at 1, gets at 1. rewrite Hco.
    unfold bind at 1. rewrite hook_run, Hsplit, for_each_app.
    unfold bind at 1. rewrite Hpre, Hpost.
    destruct o as [[] | e | |]; try reflexivity.
    unfold bind, gets.
    pose proof (calls_keep_quit post w2 Hquit) as Hq.
    rewrite Hpost in Hq. simpl in Hq. by rewrite Hq.
  - pose proof (quiet_runs _ _ (test_generator_next_quiet g w)) as H1.
    pose proof (quiet_runs _ _ (calls_quiet pre (log_event (EvRun item nextitem) w1))) as H2.
    pose proof (quiet_runs _ _ (calls_quiet post w2)) as H3.
    rewrite Hgen in H1. rewrite Hpre in H2. rewrite Hpost in H3.
    simpl in H1, H2, H3. rewrite H3, H2.
    unfold runs in *. by rewrite omap_app, H1.
Qed.

Lemma quit_lets_test_finish_witness :
  let w := world_of collected
             [ids ["a"; "b"; "c"]; VStr "ack"; VStr "ack"; VStr "ack"] in
  fst (pytest_runtestloop quit_during_a 3 w) = Ret true /\
  runs (trace (snd (pytest_runtestloop quit_during_a 3 w)))
  = [(item_a, Some item_b)] /\
  inbox (snd (pytest_runtestloop quit_during_a 3 w)) = [].
Proof.
  intros w.
  pose (w1 := snd (test_generator_next TGStart w)).
  pose (pre := [CLogStart (VStr "a") VNone; CHandleQuit]).
  pose (post := [CLogReport failed_report]).
  pose (w2 := snd (for_each pre run_call
                     (log_event (EvRun item_a (Some item_b)) w1))).
  pose (w3 := snd (for_each post run_call w2)).
  destruct (quit_lets_test_finish quit_during_a 2 TGStart w
              item_a (Some item_b) (TGLoop item_b (INBatch [VStr "c"]))
              w1 pre post w2 (Ret tt) w3) as [Hloop Hruns].
  - vm_compute. reflexivity.
  - reflexivity.
  - reflexivity.
  - vm_compute. reflexivity.
  - vm_compute. reflexivity.
  - vm_compute. reflexivity.
  - unfold pytest_runtestloop. rewrite Hloop.
    split; [reflexivity |]. split; [exact Hruns |].
    vm_compute. reflexivity.
Defined.

(** * Node ids that were never collected *)

Lemma iter_reaches_self key it w w1 :
  iter_reaches key it w w1 -> self w1 = self w.
Proof. by destruct 1. Qed.

Lemma iter_reaches_quiet key it w w1 : iter_reaches key it w w1 -> quiet w w1.
Proof.
  destruct 1; [apply quiet_refl |].
  exists (exchanges [r]). by split.
Qed.

Lemma iter_nodes_next_unknown c bad it w w1 :
  iter_reaches (VStr bad) it w w1 ->
  collection (self w) = Some c -> c !! bad = None ->
  iter_nodes_next it w = (Raise (KeyError (VStr bad)), w1).
Proof.
  intros Hreach Hc Hbad. destruct Hreach as [rest w | it r more rest w Hit Hin Hr Ht Hiter].
  - simpl. unfold bind. by rewrite (collection_getitem_unknown c).
  - assert (Hnext : iter_nodes_next it = iter_nodes_pull)
      by (by destruct Hit as [-> | ->]).
    rewrite Hnext. unfold iter_nodes_pull, bind.
    rewrite (need_tests_reply _ _ _ Hin), Hr, Ht, Hiter. simpl.
    by rewrite (collection_getitem_unknown c).
Qed.

Lemma test_generator_next_unknown c bad g w w1 :
  gen_reaches (VStr bad) g w w1 ->
  collection (self w) = Some c -> c !! bad = None ->
  test_generator_next g w = (Raise (KeyError (VStr bad)), w1).
Proof.
  intros Hreach Hc Hbad.
  destruct Hreach as [w w1 Hit | run it w w1 w2 Hfirst Hit | run it w w1 Hit].
  - pose proof (iter_nodes_next_unknown c bad _ _ _ Hit Hc Hbad) as Hraise.
    simpl in *. unfold bind. by rewrite Hraise.
  - assert (Hc1 : collection (self w1) = Some c).
    { pose proof (iter_nodes_next_self INStart w) as Hs.
      rewrite Hfirst in Hs. unfold same_self in Hs. simpl in Hs.
      by rewrite Hs. }
    pose proof (iter_nodes_next_unknown c bad _ _ _ Hit Hc1 Hbad) as Hraise.
    simpl in Hfirst. simpl. unfold bind at 1. rewrite Hfirst.
    unfold pair_up, bind. by rewrite Hraise.
  - pose proof (iter_nodes_next_unknown c bad _ _ _ Hit Hc Hbad) as Hraise.
    simpl. unfold pair_up, bind. by rewrite Hraise.
Qed.

(** C4.  When the generator comes to a node id received from the master
    that is not a key of the collection, the lookup raises [KeyError] for
    that id, the error leaves the run loop, and no test has been handed to
    the engine on the way: not for that id, and not for the test before it,
    which was waiting for its successor. *)
Theorem unknown_nodeid_raises protocol fuel c bad g w w1 :
  collection (self w) = Some c ->
  c !! bad = None ->
  gen_reaches (VStr bad) g w w1 ->
  runtestloop_from protocol (S fuel) g w = (Raise (KeyError (VStr bad)), w1) /\
  runs (trace w1) = runs (trace w) /\
  self w1 = self w.
Proof.
  intros Hc Hbad Hreach.
  pose proof (test_generator_next_unknown c bad g w w1 Hreach Hc Hbad) as Hgen.
  split; [| split].
  - rewrite runtestloop_from_S. unfold bind. by rewrite Hgen.
  - pose proof (quiet_runs _ _ (test_generator_next_quiet g w)) as Hq.
    by rewrite Hgen in Hq.
  - pose proof (test_generator_next_self g w) as Hs.
    by rewrite Hgen in Hs.
Qed.

Lemma unknown_nodeid_raises_witness :
  let w := world_of collected [ids ["a"; "zzz"; "b"]; VStr "ack"] in
  pytest_runtestloop quit_during_a 5 w
  = (Raise (KeyError (VStr "zzz")), pulled [ids ["a"; "zzz"; "b"]] [VStr "ack"] w) /\
  runs (trace (pulled [ids ["a"; "zzz"; "b"]] [VStr "ack"] w)) = [].
Proof.
  intros w.
  destruct (unknown_nodeid_raises quit_during_a 4
              (collect (items session_abc)) "zzz" TGStart w
              (pulled [ids ["a"; "zzz"; "b"]] [VStr "ack"] w))
    as (Hloop & Hruns & _).
  - reflexivity.
  - vm_compute. reflexivity.
  - apply (reach_second _ item_a (INBatch [VStr "zzz"; VStr "b"]) w
             (pulled [ids ["a"; "zzz"; "b"]] [VStr "ack"] w)).
    + vm_compute. reflexivity.
    + apply reach_in_batch.
  - split; [exact Hloop | exact Hruns].
Defined.

(** * Only received tests are run *)

Lemma received_app t t' s : received t s -> received (t ++ t') s.
Proof.
  intros (i & msg & reply & l & H1 & H2 & H3 & H4 & H5).
  exists i, msg, reply, l. repeat split; try done.
  - by apply lookup_app_l_Some.
  - by apply lookup_app_l_Some.
Qed.

Lemma received_exchange t r l s :
  py_iter r = Some l -> VStr s ∈ l -> received (t ++ exchanges [r]) s.
Proof.
  intros Hl Hs. exists (length t), need_tests, r, l.
  split; [| split; [| split; [| done]]].
  - by rewrite lookup_app_r, Nat.sub_diag by lia.
  - rewrite lookup_app_r by lia.
    by replace (S (length t) - length t) with 1 by lia.
  - reflexivity.
Qed.

Lemma pair_received_app t t' p : pair_received t p -> pair_received (t ++ t') p.
Proof.
  intros [H1 H2]. split; [by apply received_app |].
  intros n Hn. by apply received_app, H2.
Qed.

Lemma iter_ok_app t t' it : iter_ok t it -> iter_ok (t ++ t') it.
Proof.
  destruct it as [| rest |]; simpl; try done.
  intros H s Hs. by apply received_app, H.
Qed.

Lemma gen_ok_app t t' g : gen_ok t g -> gen_ok (t ++ t') g.
Proof.
  destruct g as [| run it | |]; simpl; try done.
  intros [H1 H2]. split; [by apply received_app | by apply iter_ok_app].
Qed.

Lemma collect_wf l k it : collect l !! k = Some it -> nodeid it = k.
Proof.
  unfold collect.
  assert (Hgen : forall acc : gmap string Item,
    (forall k it, acc !! k = Some it -> nodeid it = k) ->
    forall k it,
      foldl (fun c it => <[nodeid it := it]> c) acc l !! k = Some it ->
      nodeid it = k).
  { induction l as [| x l IH]; intros acc Hacc; simpl; [done |].
    apply IH. intros k' it'. rewrite lookup_insert.
    case_decide; [congruence | apply Hacc]. }
  apply Hgen. intros k' it'. by rewrite lookup_empty.
Qed.

Lemma wf_kept_refl w : wf_kept w w.
Proof. by intros H. Qed.

Lemma wf_kept_trans w1 w2 w3 : wf_kept w1 w2 -> wf_kept w2 w3 -> wf_kept w1 w3.
Proof. unfold wf_kept. auto. Qed.

Lemma wf_kept_same w w' :
  collection (self w') = collection (self w) -> wf_kept w w'.
Proof. intros H Hwf c k it. rewrite H. apply Hwf. Qed.

Lemma wf_kept_collect l w : wf_kept w (set_self (with_collection (collect l)) w).
Proof. intros _ c k it [= <-]. apply collect_wf. Qed.

Lemma run_call_wf c : steps wf_kept (run_call c).
Proof.
  apply steps_run_call;
    [exact wf_kept_refl | exact wf_kept_trans
    | intros; by apply wf_kept_same .. | exact wf_kept_collect].
Qed.

Lemma calls_wf l : steps wf_kept (for_each l run_call).
Proof.
  apply steps_for_each;
    [exact wf_kept_refl | exact wf_kept_trans | exact run_call_wf].
Qed.

Lemma message_wf text kwargs : steps wf_kept (message text kwargs).
Proof. apply (run_call_wf (CMessage text kwargs)). Qed.

Lemma message_quiet text kwargs : steps quiet (message text kwargs).
Proof. apply (run_call_quiet (CMessage text kwargs)). Qed.

Lemma coll_wf_same_self w w' : self w' = self w -> coll_wf w -> coll_wf w'.
Proof. intros H. apply wf_kept_same. by rewrite H. Qed.

Lemma collection_getitem_inv k w o w' :
  collection_getitem k w = (o, w') ->
  w' = w /\
  forall item, o = Ret item ->
    exists c s, k = VStr s /\ collection (self w) = Some c /\ c !! s = Some item.
Proof.
  unfold collection_getitem. intros H.
  destruct (collection (self w)) as [c |]; [| by injection H as <- <-].
  destruct k; try (by injection H as <- <-).
  destruct (c !! s) as [it |] eqn:Hs; injection H as <- <-; [| done].
  split; [done |]. intros item [= <-]. by exists c, s.
Qed.

(** Looking up the head of a batch whose ids have been received. *)
Lemma lookup_received t k rest w o w' :
  coll_wf w ->
  (forall s, VStr s ∈ k :: rest -> received t s) ->
  (do it <- collection_getitem k ; ret (Some it, INBatch rest)) w = (o, w') ->
  w' = w /\
  match o with
  | Ret (Some item, it') => received t (nodeid item) /\ iter_ok t it'
  | _ => True
  end.
Proof.
  intros Hwf Hrec H. unfold bind in H.
  destruct (collection_getitem k w) as [o1 w1] eqn:Hget.
  apply collection_getitem_inv in Hget as [-> Hitem].
  destruct o1 as [item | e | |]; injection H as <- <-; split; try done.
  destruct (Hitem item eq_refl) as (c & s & -> & Hc & Hs).
  rewrite (Hwf c s item Hc Hs). split.
  - apply Hrec. left.
  - intros s' Hs'. apply Hrec. by right.
Qed.

Lemma iter_nodes_pull_received t w o w' :
  coll_wf w ->
  iter_nodes_pull w = (o, w') ->
  exists t',
    trace w' = trace w ++ t' /\ self w' = self w /\
    match o with
    | Ret (Some item, it') =>
        received (t ++ t') (nodeid item) /\ iter_ok (t ++ t') it'
    | _ => True
    end.
Proof.
  intros Hwf H. unfold iter_nodes_pull in H. unfold bind at 1 in H.
  destruct (inbox w) as [| r more] eqn:Hin.
  { rewrite (send_event_blocked "need_tests" [] w eq_refl Hin) in H.
    injection H as <- <-. by exists [EvSend need_tests]. }
  rewrite (need_tests_reply _ _ _ Hin) in H.
  assert (Hstep : trace (pulled [r] more w) = trace w ++ exchanges [r]
                  /\ self (pulled [r] more w) = self w) by done.
  destruct (reply_outcome r) as [v | e | |] eqn:Hr;
    try (injection H as <- <-; by exists (exchanges [r])).
  destruct (negb (truthy v)); [injection H as <- <-; by exists (exchanges [r]) |].
  destruct (py_iter v) as [[| k rest] |] eqn:Hiter;
    try (injection H as <- <-; by exists (exchanges [r])).
  assert (v = r) as ->.
  { unfold reply_outcome in Hr. destruct (py_eq_str r "die"); [done |].
    destruct (py_eq_str r "ack"); [| congruence].
    injection Hr as <-. discriminate Hiter. }
  apply (lookup_received (t ++ exchanges [r])) in H as [-> Ho].
  - exists (exchanges [r]). by destruct Hstep.
  - apply (coll_wf_same_self w); [done | exact Hwf].
  - intros s Hs. by apply (received_exchange t r (k :: rest)).
Qed.

Lemma iter_nodes_next_received t it w o w' :
  coll_wf w ->
  iter_ok t it ->
  iter_nodes_next it w = (o, w') ->
  exists t',
    trace w' = trace w ++ t' /\ self w' = self w /\
    match o with
    | Ret (Some item, it') =>
        received (t ++ t') (nodeid item) /\ iter_ok (t ++ t') it'
    | _ => True
    end.
Proof.
  intros Hwf Hok H.
  destruct it as [| [| k rest] |]; simpl in H.
  - by apply iter_nodes_pull_received.
  - by apply iter_nodes_pull_received.
  - apply (lookup_received t) in H as [-> Ho]; [| done | exact Hok].
    exists []. rewrite !app_nil_r. by split.
  - injection H as <- <-. exists []. by rewrite app_nil_r.
Qed.

Lemma pair_up_received t run it w o w' :
  coll_wf w ->
  gen_ok t (TGLoop run it) ->
  pair_up run it w = (o, w') ->
  exists t',
    trace w' = trace w ++ t' /\ self w' = self w /\
    match o with
    | Ret (Some p, g') => pair_received (t ++ t') p /\ gen_ok (t ++ t') g'
    | _ => True
    end.
Proof.
  intros Hwf [Hrun Hit] H. unfold pair_up, bind in H.
  destruct (iter_nodes_next it w) as [o1 w1] eqn:Hnext.
  destruct (iter_nodes_next_received t it w o1 w1 Hwf Hit Hnext)
    as (t' & Htr & Hself & Ho1).
  exists t'. split; [| split].
  - destruct o1 as [[[next |] it'] | | |]; by injection H as <- <-.
  - destruct o1 as [[[next |] it'] | | |]; by injection H as <- <-.
  - destruct o1 as [[[next |] it'] | | |]; injection H as <- <-; try done.
    + destruct Ho1 as [Hnext' Hit']. split; [| by split].
      split; [by apply received_app |]. by intros n [= <-].
    + split; [| done]. split; [by apply received_app | done].
Qed.

Lemma test_generator_next_received t g w o w' :
  coll_wf w ->
  gen_ok t g ->
  test_generator_next g w = (o, w') ->
  exists t',
    trace w' = trace w ++ t' /\ self w' = self w /\
    match o with
    | Ret (Some p, g') => pair_received (t ++ t') p /\ gen_ok (t ++ t') g'
    | _ => True
    end.
Proof.
  intros Hwf Hok H. destruct g as [| run it | |].
  - simpl in H. unfold bind in H.
    destruct (iter_nodes_pull w) as [o1 w1] eqn:Hpull.
    destruct (iter_nodes_pull_received t w o1 w1 Hwf Hpull)
      as (t1 & Htr1 & Hself1 & Ho1).
    destruct o1 as [[[run |] it] | | |];
      [| injection H as <- <-; by exists t1 ..].
    destruct (pair_up_received (t ++ t1) run it w1 o w') as (t2 & Htr2 & Hself2 & Ho);
      [by apply (coll_wf_same_self w) | exact Ho1 | exact H |].
    exists (t1 ++ t2). rewrite Htr2, Htr1, Hself2, Hself1.
    by rewrite !app_assoc.
  - exact (pair_up_received t run it w o w' Hwf Hok H).
  - injection H as <- <-. exists []. by rewrite app_nil_r.
  - injection H as <- <-. exists []. by rewrite app_nil_r.
Qed.

Lemma runs_app t1 t2 : runs (t1 ++ t2) = runs t1 ++ runs t2.
Proof. apply omap_app. Qed.

Lemma quiet_extension w w' t :
  quiet w w' -> trace w' = trace w ++ t -> runs t = [].
Proof.
  intros (t0 & H0 & Hr) H. rewrite H0 in H.
  by apply app_inv_head in H as <-.
Qed.

(** The body of the [for] loop up to the test of the flag. *)
Lemma loop_body_received protocol item nextitem w o w' :
  coll_wf w ->
  (if collectonly (self w) then message (nodeid item) []
   else hook_pytest_runtest_protocol protocol item nextitem) w = (o, w') ->
  exists t,
    trace w' = trace w ++ t /\ coll_wf w' /\
    forall p, p ∈ runs t -> p = (item, nextitem).
Proof.
  intros Hwf H. destruct (collectonly (self w)).
  - pose proof (message_quiet (nodeid item) [] w) as (t & Ht & Hr).
    pose proof (message_wf (nodeid item) [] w Hwf) as Hwf'.
    rewrite H in Ht, Hwf'. exists t. split; [done |]. split; [done |].
    rewrite Hr. by intros p Hp%elem_of_nil.
  - rewrite hook_run in H.
    pose proof (calls_quiet (protocol item nextitem)
                  (log_event (EvRun item nextitem) w)) as (t & Ht & Hr).
    pose proof (calls_wf (protocol item nextitem)
                  (log_event (EvRun item nextitem) w) Hwf) as Hwf'.
    rewrite H in Ht, Hwf'. simpl in Ht.
    exists (EvRun item nextitem :: t). split; [| split; [done |]].
    + rewrite Ht, <- app_assoc. reflexivity.
    + change (runs (EvRun item nextitem :: t))
        with ((item, nextitem) :: runs t).
      rewrite Hr. by intros p ->%list_elem_of_singleton.
Qed.

Lemma runtestloop_received protocol fuel :
  forall g w t o w',
    coll_wf w ->
    gen_ok t g ->
    runtestloop_from protocol fuel g w = (o, w') ->
    exists t',
      trace w' = trace w ++ t' /\
      forall p, p ∈ runs t' -> pair_received (t ++ t') p.
Proof.
  induction fuel as [| fuel IH]; intros g w t o w' Hwf Hok H.
  { injection H as <- <-. exists []. rewrite app_nil_r. split; [done |].
    by intros p Hin%elem_of_nil. }
  rewrite runtestloop_from_S in H. unfold bind at 1 in H.
  destruct (test_generator_next g w) as [o1 w1] eqn:Hgen.
  destruct (test_generator_next_received t g w o1 w1 Hwf Hok Hgen)
    as (t1 & Htr1 & Hself1 & Ho1).
  assert (Hr1 : runs t1 = []).
  { apply (quiet_extension w w1); [| done].
    pose proof (test_generator_next_quiet g w) as Hq. by rewrite Hgen in Hq. }
  assert (Hstop : forall b : Outcome bool,
    (b, w1) = (o, w') ->
    exists t', trace w' = trace w ++ t' /\
      forall p, p ∈ runs t' -> pair_received (t ++ t') p).
  { intros b [= <- <-]. exists t1. split; [done |].
    rewrite Hr1. by intros p Hin%elem_of_nil. }
  destruct o1 as [[[[item nextitem] |] g1] | e | |]; try (by eapply Hstop).
  destruct Ho1 as [Hitem Hg1].
  unfold bind at 1, gets at 1 in H. unfold bind at 1 in H.
  destruct ((if collectonly (self w1) then message (nodeid item) []
             else hook_pytest_runtest_protocol protocol item nextitem) w1)
    as [o2 w2] eqn:Hbody.
  destruct (loop_body_received protocol item nextitem w1 o2 w2)
    as (tb & Htrb & Hwf2 & Hrb); [by apply (coll_wf_same_self w) | done |].
  assert (Hhere : forall p, p ∈ runs (t1 ++ tb) ->
            pair_received (t ++ t1 ++ tb) p).
  { intros p. rewrite runs_app, Hr1. simpl. intros ->%Hrb.
    rewrite app_assoc. by apply pair_received_app. }
  assert (Hend : forall b : Outcome bool,
    (b, w2) = (o, w') ->
    exists t', trace w' = trace w ++ t' /\
      forall p, p ∈ runs t' -> pair_received (t ++ t') p).
  { intros b [= <- <-]. exists (t1 ++ tb). split.
    - by rewrite Htrb, Htr1, app_assoc.
    - exact Hhere. }
  destruct o2 as [[] | e | |]; try (by eapply Hend).
  unfold bind at 1, gets at 1 in H.
  destruct (quit_signaled (self w2)); [by eapply Hend |].
  destruct (IH g1 w2 (t ++ t1 ++ tb) o w' Hwf2) as (t3 & Htr3 & Hr3).
  { rewrite app_assoc. by apply gen_ok_app. }
  { exact H. }
  exists (t1 ++ tb ++ t3). split.
  - by rewrite Htr3, Htrb, Htr1, <- !app_assoc.
  - intros p. rewrite (app_assoc t1), runs_app.
    replace (t ++ (t1 ++ tb) ++ t3) with ((t ++ t1 ++ tb) ++ t3)
      by (by rewrite <- !app_assoc).
    intros [Hin | Hin]%elem_of_app.
    + apply pair_received_app. exact (Hhere p Hin).
    + exact (Hr3 p Hin).
Qed.

(** A worker as the constructor makes it, and every worker that methods
    have worked on since, has a well-filed collection. *)
Lemma coll_wf_init co id url replies : coll_wf (world_of (init co id url) replies).
Proof. by intros c k it. Qed.

(** C3.  In every run of the run loop, whatever the engine and the master
    do and however the run ends, each test handed to the engine during the
    run, and each test announced to it as the next one, carries a node id
    that the master delivered during the run in a reply to a [need_tests]
    request. *)
Theorem only_received_tests_run protocol fuel w o w' :
  coll_wf w ->
  pytest_runtestloop protocol fuel w = (o, w') ->
  exists new,
    trace w' = trace w ++ new /\
    forall item nextitem,
      (item, nextitem) ∈ runs new ->
      received new (nodeid item) /\
      forall n, nextitem = Some n -> received new (nodeid n).
Proof.
  intros Hwf H.
  destruct (runtestloop_received protocol fuel TGStart w [] o w' Hwf I H)
    as (new & Htr & Hrec).
  exists new. split; [done |].
  intros item nextitem Hin. exact (Hrec (item, nextitem) Hin).
Qed.

(** * [serialize_report] and the report it is given *)

Lemma frame_refl n w : frame n w w.
Proof. by repeat split. Qed.

Lemma frame_trans n w1 w2 w3 : frame n w1 w2 -> frame n w2 w3 -> frame n w1 w3.
Proof.
  intros (H1 & H2 & H3 & H4) (K1 & K2 & K3 & K4).
  repeat split; congruence.
Qed.

Lemma dict_set_frame n d name v : n <= d -> steps (frame n) (dict_set d name v).
Proof.
  intros Hd w. unfold dict_set, modify, frame. simpl.
  repeat split. by apply take_alter_ge.
Qed.

Lemma dict_get_same d name w : snd (dict_get d name w) = w.
Proof. unfold dict_get. by destruct (_ ≫= _). Qed.

Lemma getattr_same obj name w : snd (getattr obj name w) = w.
Proof.
  unfold getattr. destruct (heap w !! obj) as [d |]; [| done].
  by destruct (d !! name).
Qed.

Lemma serialize_field_frame n d name :
  n <= d -> steps (frame n) (serialize_field d name).
Proof.
  intros Hd. unfold serialize_field.
  apply steps_bind; [apply frame_trans | |].
  - intros w. rewrite dict_get_same. apply frame_refl.
  - intros v. destruct (is_local v); [by apply dict_set_frame |].
    destruct (String.eqb name "result"); [by apply dict_set_frame |].
    apply steps_ret, frame_refl.
Qed.

Lemma serialize_report_frame rep w :
  frame (length (heap w)) w (snd (serialize_report rep w)).
Proof.
  set (n := length (heap w)).
  unfold serialize_report, bind at 1, dict_copy.
  destruct (heap w !! rep) as [fields |]; [| apply frame_refl].
  unfold alloc. fold n.
  apply (frame_trans n _ (set_heap (heap w ++ [fields]) w)).
  { unfold frame. simpl. repeat split.
    by rewrite take_app_length', take_ge by done. }
  generalize (set_heap (heap w ++ [fields]) w). intros w1.
  assert (Hrest : steps (frame n)
    (do longrepr <- getattr rep "longrepr" ;
     (if has_toterminal longrepr
      then dict_set n "longrepr" (VStr (py_str longrepr))
      else dict_set n "longrepr" longrepr) ;;
     do names <- dict_names n ;
     for_each names (serialize_field n) ;;
     ret n)).
  { apply steps_bind; [apply frame_trans | |].
    { intros w2. rewrite getattr_same. apply frame_refl. }
    intros longrepr.
    apply steps_bind; [apply frame_trans | |].
    { destruct (has_toterminal longrepr); by apply dict_set_frame. }
    intros _. apply steps_bind; [apply frame_trans | |].
    { apply steps_gets, frame_refl. }
    intros names. apply steps_bind; [apply frame_trans | |].
    - apply steps_for_each; [apply frame_refl | apply frame_trans |].
      intros name. by apply serialize_field_frame.
    - intros _. apply steps_ret, frame_refl. }
  apply Hrest.
Qed.

(** C10.  [serialize_report] leaves its argument as it was: after the call
    every object that existed before, the report among them, has the
    fields and the field values it had, and nothing else of the world has
    changed; what the call builds it builds in a new dictionary. *)
Theorem serialize_report_leaves_report rep w :
  take (length (heap w)) (heap (snd (serialize_report rep w))) = heap w /\
  heap (snd (serialize_report rep w)) !! rep = heap w !! rep /\
  self (snd (serialize_report rep w)) = self w /\
  inbox (snd (serialize_report rep w)) = inbox w /\
  trace (snd (serialize_report rep w)) = trace w.
Proof.
  destruct (serialize_report_frame rep w) as (Hs & Hi & Ht & Hh).
  rewrite (take_ge (heap w)) in Hh by done.
  repeat split; try done.
  destruct (decide (rep < length (heap w))) as [Hlt | Hge].
  - transitivity
      (take (length (heap w)) (heap (snd (serialize_report rep w))) !! rep).
    + symmetry. by apply lookup_take_lt.
    + by rewrite Hh.
  - assert (Hnone : heap w !! rep = None) by (apply lookup_ge_None_2; lia).
    assert (Hsame : snd (serialize_report rep w) = w).
    { unfold serialize_report, bind, dict_copy. by rewrite Hnone. }
    by rewrite Hsame.
Qed.

(** * What [serialize_report] returns *)

Lemma alter_as_insert {A} (f : A -> A) (l : list A) i x :
  l !! i = Some x -> alter f i l = <[i := f x]> l.
Proof.
  intros Hx. rewrite list_insert_alter.
  apply list_alter_ext; [| done]. intros y Hy. congruence.
Qed.

Lemma map_alter_as_insert (f : PyVal -> PyVal) (m : gmap string PyVal) k v :
  m !! k = Some v -> alter f k m = <[k := f v]> m.
Proof.
  intros Hv. apply map_eq. intros k'.
  destruct (decide (k = k')) as [<- | Hne].
  - by rewrite lookup_alter_eq, lookup_insert_eq, Hv.
  - by rewrite lookup_alter_ne, lookup_insert_ne.
Qed.

Lemma set_heap_same w : set_heap (heap w) w = w.
Proof. by destruct w. Qed.

Lemma dict_set_at d name v w m :
  heap w !! d = Some m ->
  dict_set d name v w
  = (Ret tt, set_heap (<[d := <[name := v]> m]> (heap w)) w).
Proof.
  intros Hd. unfold dict_set, modify. by rewrite (alter_as_insert _ _ _ m).
Qed.

Lemma dict_get_at d name w m v :
  heap w !! d = Some m -> m !! name = Some v ->
  dict_get d name w = (Ret v, w).
Proof. intros Hd Hv. unfold dict_get. rewrite Hd. simpl. by rewrite Hv. Qed.

Lemma serialize_field_at d name w m v :
  heap w !! d = Some m -> m !! name = Some v ->
  serialize_field d name w
  = (Ret tt, set_heap (<[d := field_step m name]> (heap w)) w).
Proof.
  intros Hd Hv. unfold serialize_field, bind, field_step.
  rewrite (dict_get_at d name w m v Hd Hv).
  rewrite (map_alter_as_insert _ _ _ v Hv). unfold field_out.
  destruct (is_local v); [by apply dict_set_at |].
  destruct (String.eqb name "result"); [by apply dict_set_at |].
  unfold ret. by rewrite (insert_id m), (list_insert_id (heap w)), set_heap_same.
Qed.

Lemma field_step_keys m name k :
  is_Some (m !! k) -> is_Some (field_step m name !! k).
Proof.
  intros [v Hv]. unfold field_step.
  destruct (decide (name = k)) as [-> | Hne].
  - rewrite lookup_alter_eq, Hv. by eexists.
  - rewrite lookup_alter_ne, Hv by done. by eexists.
Qed.

Lemma for_each_fields d names :
  forall w m,
    heap w !! d = Some m ->
    Forall (fun n => is_Some (m !! n)) names ->
    for_each names (serialize_field d) w
    = (Ret tt, set_heap (<[d := foldl field_step m names]> (heap w)) w).
Proof.
  induction names as [| n names IH]; intros w m Hd Hnames; simpl.
  - unfold ret. by rewrite (list_insert_id (heap w)), set_heap_same.
  - apply Forall_cons in Hnames as [[v Hv] Hnames]. unfold bind.
    rewrite (serialize_field_at d n w m v Hd Hv).
    assert (Hlen : d < length (heap w)) by (by eapply lookup_lt_Some).
    rewrite (IH _ (field_step m n)).
    + simpl. by rewrite list_insert_insert_eq.
    + simpl. by apply list_lookup_insert_eq.
    + eapply Forall_impl; [exact Hnames |]. intros k. apply field_step_keys.
Qed.

Lemma foldl_field_step_other names :
  forall m k, k ∉ names -> foldl field_step m names !! k = m !! k.
Proof.
  induction names as [| n names IH]; intros m k Hk; simpl; [done |].
  apply not_elem_of_cons in Hk as [Hne Hk].
  rewrite IH by done. unfold field_step. by rewrite lookup_alter_ne.
Qed.

Lemma foldl_field_step_once names :
  NoDup names ->
  forall m k,
    k ∈ names -> foldl field_step m names !! k = field_out k <$> m !! k.
Proof.
  induction 1 as [| n names Hn Hnd IH]; intros m k Hk.
  - by apply elem_of_nil in Hk.
  - simpl. apply elem_of_cons in Hk as [-> | Hk].
    + rewrite foldl_field_step_other by done.
      unfold field_step. by rewrite lookup_alter_eq.
    + rewrite IH by done. unfold field_step.
      rewrite lookup_alter_ne; [done |]. by intros ->.
Qed.

Lemma fields_serialized (m : gmap string PyVal) k :
  foldl field_step m (dict_keys m) !! k = field_out k <$> m !! k.
Proof.
  destruct (m !! k) as [v |] eqn:Hv.
  - rewrite foldl_field_step_once, Hv; [done | |].
    + apply NoDup_fst_map_to_list.
    + unfold dict_keys. apply list_elem_of_fmap. exists (k, v).
      split; [done |]. by apply elem_of_map_to_list.
  - rewrite foldl_field_step_other, Hv; [done |].
    unfold dict_keys. intros ((k' & v) & -> & Hin)%list_elem_of_fmap.
    apply elem_of_map_to_list in Hin. simpl in Hv. congruence.
Qed.

Lemma serialize_report_at rep w fields lr :
  heap w !! rep = Some fields ->
  fields !! "longrepr" = Some lr ->
  let m := <["longrepr" := longrepr_out lr]> fields in
  serialize_report rep w
  = (Ret (length (heap w)),
     set_heap (heap w ++ [foldl field_step m (dict_keys m)]) w).
Proof.
  intros Hrep Hlr m. set (n := length (heap w)).
  set (w1 := set_heap (heap w ++ [fields]) w).
  assert (Hcopy : dict_copy rep w = (Ret n, w1)).
  { unfold dict_copy. by rewrite Hrep. }
  assert (Hget : getattr rep "longrepr" w1 = (Ret lr, w1)).
  { unfold getattr. simpl. rewrite lookup_app_l by (by eapply lookup_lt_Some).
    by rewrite Hrep, Hlr. }
  assert (Hn : heap w1 !! n = Some fields).
  { simpl. by rewrite list_lookup_middle. }
  set (w2 := set_heap (<[n := m]> (heap w1)) w1).
  assert (Hset : (if has_toterminal lr
                  then dict_set n "longrepr" (VStr (py_str lr))
                  else dict_set n "longrepr" lr) w1 = (Ret tt, w2)).
  { unfold w2, m, longrepr_out.
    destruct (has_toterminal lr); by apply dict_set_at. }
  assert (Hn2 : heap w2 !! n = Some m).
  { simpl. apply list_lookup_insert_eq. rewrite length_app. simpl. lia. }
  assert (Hnames : dict_names n w2 = (Ret (dict_keys m), w2)).
  { unfold dict_names, gets. by rewrite Hn2. }
  unfold serialize_report.
  rewrite (bind_ret _ _ _ _ _ Hcopy), (bind_ret _ _ _ _ _ Hget).
  rewrite (bind_ret _ _ _ _ _ Hset), (bind_ret _ _ _ _ _ Hnames).
  erewrite bind_ret; [| apply (for_each_fields n _ w2 m Hn2)].
  - unfold ret. f_equal. unfold w2, w1, set_heap. simpl. f_equal.
    rewrite list_insert_insert_eq.
    replace n with (length (heap w) + 0) by (unfold n; lia).
    by rewrite insert_app_r.
  - apply Forall_forall. intros k ((k' & v) & -> & Hin)%list_elem_of_fmap.
    apply elem_of_map_to_list in Hin. by eexists.
Qed.

(** C5, as the source has it.  For a report that has a [longrepr],
    [serialize_report] returns, without raising, a new dictionary with the
    keys of the report's own, in which [longrepr] is its string form when it
    has [toterminal]; every field holding a [py.path.local] is that path's
    string form; the field [result], unless it holds such a path, is
    [None]; and every other field is what it was, whether it can be sent or
    not. *)
Theorem serialize_report_result rep w fields lr :
  heap w !! rep = Some fields ->
  fields !! "longrepr" = Some lr ->
  exists out,
    serialize_report rep w
    = (Ret (length (heap w)), set_heap (heap w ++ [out]) w) /\
    out !! "longrepr" = Some (field_out "longrepr" (longrepr_out lr)) /\
    (forall name v,
       name <> "longrepr" -> fields !! name = Some v ->
       out !! name = Some (field_out name v)) /\
    (forall name, fields !! name = None -> out !! name = None).
Proof.
  intros Hrep Hlr. eexists. split; [by apply serialize_report_at |].
  split; [| split].
  - by rewrite fields_serialized, lookup_insert_eq.
  - intros name v Hne Hv. by rewrite fields_serialized, lookup_insert_ne, Hv.
  - intros name Hnone. rewrite fields_serialized.
    rewrite lookup_insert_ne, Hnone; [done |]. intros <-. congruence.
Qed.

Lemma serialize_report_result_witness :
  let w := {| self := collected; inbox := []; trace := [];
              heap := [failed_report] |} in
  exists out,
    serialize_report 0 w = (Ret 1, set_heap [failed_report; out] w) /\
    out !! "longrepr" = Some (VStr "assert 1 == 2") /\
    out !! "fspath" = Some (VStr "/tests/test_x.py") /\
    out !! "result" = Some VNone /\
    out !! "outcome" = Some (VStr "failed").
Proof.
  intros w.
  destruct (serialize_report_result 0 w failed_report (VRepr "assert 1 == 2"))
    as (out & Hret & Hlong & Hother & _).
  - reflexivity.
  - vm_compute. reflexivity.
  - exists out. split; [exact Hret |]. split; [exact Hlong |].
    split; [| split].
    + apply (Hother "fspath" (VLocal "/tests/test_x.py")); [discriminate |].
      vm_compute. reflexivity.
    + apply (Hother "result" (VObj 7)); [discriminate |].
      vm_compute. reflexivity.
    + apply (Hother "outcome" (VStr "failed")); [discriminate |].
      vm_compute. reflexivity.
Defined.

(** C5, as stated, fails: a report that carries an object which is neither
    a path nor under [result] comes back with that object in place, not
    with its string form, so what [serialize_report] returns cannot be
    sent, and [pytest_runtest_logreport] raises when it tries. *)
Lemma serialize_report_keeps_other_objects :
  let w := {| self := collected; inbox := [VStr "ack"]; trace := [];
              heap := [report_with_item] |} in
  exists out,
    serialize_report 0 w = (Ret 1, set_heap [report_with_item; out] w) /\
    out !! "item" = Some (VObj 7) /\
    json_ok (VObj 7) = false /\
    dict_json_ok (map_to_list out) = false /\
    fst (pytest_runtest_logreport 0 w) = Raise TypeError.
Proof.
  intros w. exists report_with_item. repeat split; by vm_compute.
Qed.

(** * Workers that can be reached *)

Lemma coll_wf_run_ops protocol ops w :
  coll_wf w -> coll_wf (run_ops protocol ops w).
Proof.
  apply (run_ops_related wf_kept);
    [exact wf_kept_refl | exact wf_kept_trans
    | intros; by apply wf_kept_same .. | exact wf_kept_collect
    | intros; by apply wf_kept_same].
Qed.

Lemma coll_wf_collected replies : coll_wf (world_of collected replies).
Proof. intros c k it [= <-]. apply collect_wf. Qed.

Lemma only_received_tests_run_witness :
  let w := world_of collected
             [ids ["a"; "b"]; VStr "ack"; VStr "ack"; VStr "ack"; ids []] in
  exists new,
    trace (snd (pytest_runtestloop quit_during_a 3 w)) = trace w ++ new /\
    forall item nextitem,
      (item, nextitem) ∈ runs new ->
      received new (nodeid item) /\
      forall n, nextitem = Some n -> received new (nodeid n).
Proof.
  intros w.
  apply (only_received_tests_run quit_during_a 3 w
           (fst (pytest_runtestloop quit_during_a 3 w))).
  - apply coll_wf_collected.
  - apply surjective_pairing.
Defined.

(** * The methods on the worker above *)

Example collection_finish_on_init :
  self (snd (pytest_collection_finish session_abc
               (world_of (init false "slave0" "https://appliance") [VStr "ack"])))
  = collected.
Proof. by vm_compute. Qed.

Example collection_finish_request :
  requests (trace (snd (pytest_collection_finish session_abc
               (world_of (init false "slave0" "https://appliance") [VStr "ack"]))))
  = [VStr "collectionfinish"].
Proof. by vm_compute. Qed.

Example internalerror_sends_last_line :
  let text :=
    String.append "Traceback (most recent call last):"
      (String (ascii_of_nat 10)
         (String.append "ValueError: boom" (String (ascii_of_nat 10) ""))) in
  trace (snd (pytest_internalerror (VRepr text) (world_of collected [VStr "ack"])))
  = [EvSend [("message", VStr "INTERNALERROR> ValueError: boom");
             ("_event_name", VStr "internalerror")];
     EvRecv (VStr "ack")].
Proof. by vm_compute. Qed.

Example die_ends_the_loop :
  let w := world_of collected [ids ["a"; "b"]; VStr "die"; VStr "ack"] in
  fst (pytest_runtestloop quit_during_a 5 w) = Raise SystemExit /\
  runs (trace (snd (pytest_runtestloop quit_during_a 5 w)))
  = [(item_a, Some item_b)] /\
  inbox (snd (pytest_runtestloop quit_during_a 5 w)) = [VStr "ack"].
Proof. by vm_compute. Qed.

Example collectonly_runs_nothing :
  let w := world_of (with_collection (collect (items session_abc))
                       (init true "slave0" "https://appliance"))
             [ids ["a"; "b"]; VStr "ack"; ids []; VStr "ack"] in
  fst (pytest_runtestloop quit_during_a 5 w) = Ret true /\
  runs (trace (snd (pytest_runtestloop quit_during_a 5 w))) = [] /\
  requests (trace (snd (pytest_runtestloop quit_during_a 5 w)))
  = [VStr "need_tests"; VStr "message"; VStr "need_tests"; VStr "message"].
Proof. by vm_compute. Qed.

(** * What every operation adds to the trace *)

Lemma raises_other (e : Exn) :
  e <> SystemExit ->
  SRaise e = SRet \/ exists e', e' <> SystemExit /\ SRaise e = SRaise e'.
Proof. intros He. right. by exists e. Qed.

Lemma silent_ret {A} (a : A) : silent (ret a).
Proof. intros w. simpl. auto. Qed.

Lemma silent_gets {A} (f : World -> A) : silent (gets f).
Proof. intros w. simpl. auto. Qed.

Lemma silent_raise {A} e : e <> SystemExit -> silent (@raise A e).
Proof. intros He w. simpl. split; [done |]. split; [done |]. by apply raises_other. Qed.

Lemma silent_modify (f : World -> World) :
  (forall w, trace (f w) = trace w /\ inbox (f w) = inbox w) ->
  silent (modify f).
Proof. intros Hf w. simpl. destruct (Hf w). auto. Qed.

Lemma silent_bind {A B} (m : M A) (k : A -> M B) :
  silent m -> (forall a, silent (k a)) -> silent (bind m k).
Proof.
  intros Hm Hk w. unfold bind. destruct (Hm w) as (Ht & Hi & Hs).
  destruct (m w) as [[a | e | |] w1]; simpl in *.
  - destruct (Hk a w1) as (Ht' & Hi' & Hs').
    split; [congruence |]. split; [congruence | done].
  - destruct Hs as [Hs | (e' & He' & Hs)]; [done |]. injection Hs as ->.
    split; [done |]. split; [done |]. right. by exists e'.
  - by destruct Hs as [Hs | (e' & He' & Hs)].
  - by destruct Hs as [Hs | (e' & He' & Hs)].
Qed.

Lemma silent_for_each {A} (l : list A) (body : A -> M unit) :
  (forall x, silent (body x)) -> silent (for_each l body).
Proof.
  intros Hb. induction l as [| x l IH]; simpl.
  - apply silent_ret.
  - apply silent_bind; [apply Hb | intros _; exact IH].
Qed.

Lemma silent_getattr obj name : silent (getattr obj name).
Proof.
  intros w. unfold getattr.
  destruct (heap w !! obj) as [d |]; [destruct (d !! name) |]; simpl;
    (split; [done |]); (split; [done |]); try (by left);
    by apply raises_other.
Qed.

Lemma silent_alloc fields : silent (alloc fields).
Proof. intros w. simpl. auto. Qed.

Lemma silent_dict_copy obj : silent (dict_copy obj).
Proof.
  intros w. unfold dict_copy. destruct (heap w !! obj); [apply silent_alloc |].
  simpl. split; [done |]. split; [done |]. by apply raises_other.
Qed.

Lemma silent_dict_set d name v : silent (dict_set d name v).
Proof. by apply silent_modify. Qed.

Lemma silent_dict_get d name : silent (dict_get d name).
Proof.
  intros w. unfold dict_get. destruct (_ ≫= _); simpl;
    (split; [done |]); (split; [done |]); [by left |].
  by apply raises_other.
Qed.

Lemma silent_serialize_report rep : silent (serialize_report rep).
Proof.
  unfold serialize_report.
  apply silent_bind; [apply silent_dict_copy | intros d].
  apply silent_bind; [apply silent_getattr | intros longrepr].
  apply silent_bind.
  { destruct (has_toterminal longrepr); apply silent_dict_set. }
  intros _. apply silent_bind; [apply silent_gets | intros names].
  apply silent_bind; [| intros _; apply silent_ret].
  apply silent_for_each. intros name. unfold serialize_field.
  apply silent_bind; [apply silent_dict_get | intros v].
  destruct (is_local v); [apply silent_dict_set |].
  destruct (String.eqb name "result"); [apply silent_dict_set | apply silent_ret].
Qed.

Lemma silent_collection_getitem key : silent (collection_getitem key).
Proof.
  intros w. unfold collection_getitem.
  assert (Hraise : forall e, e <> SystemExit ->
    trace w = trace w /\ inbox w = inbox w /\
    (SRaise e = SRet \/ exists e', e' <> SystemExit /\ SRaise e = SRaise e')).
  { intros e He. split; [done |]. split; [done |]. by apply raises_other. }
  destruct (collection (self w)) as [c |]; [| by apply Hraise].
  destruct key; try (by apply Hraise).
  destruct (c !! s); [simpl; auto | by apply Hraise].
Qed.

Section Emits.

Variable P : list Event -> Status -> Prop.
Hypothesis P_ret : P [] SRet.
Hypothesis P_raise : forall e, e <> SystemExit -> P [] (SRaise e).
Hypothesis P_fuel : P [] SFuel.
Hypothesis P_seq : forall t1 t2 s, P t1 SRet -> P t2 s -> P (t1 ++ t2) s.
Hypothesis P_exchange :
  forall msg r, r <> VStr "die" -> P [EvSend msg; EvRecv r] SRet.
Hypothesis P_die :
  forall msg, P [EvSend msg; EvRecv (VStr "die")] (SRaise SystemExit).
Hypothesis P_blocked : forall msg, P [EvSend msg] SBlocked.

Lemma emits_silent {A} (m : M A) : silent m -> emits P m.
Proof.
  intros Hm w. destruct (Hm w) as (Ht & Hi & Hs). exists [].
  rewrite app_nil_r. split; [done |]. split; [by rewrite Hi |].
  destruct Hs as [-> | (e & He & ->)]; auto.
Qed.

Lemma emits_ret {A} (a : A) : emits P (ret a).
Proof. apply emits_silent, silent_ret. Qed.

Lemma emits_out_of_fuel {A} : emits P (@out_of_fuel A).
Proof. intros w. exists []. simpl. by rewrite app_nil_r. Qed.

Lemma emits_bind {A B} (m : M A) (k : A -> M B) :
  emits P m -> (forall a, emits P (k a)) -> emits P (bind m k).
Proof.
  intros Hm Hk w. unfold bind. destruct (Hm w) as (t1 & Ht1 & Hi1 & HP1).
  destruct (m w) as [[a | e | |] w1]; simpl in *; try (by exists t1).
  destruct (Hk a w1) as (t2 & Ht2 & Hi2 & HP2). exists (t1 ++ t2).
  split; [by rewrite Ht2, Ht1, app_assoc |].
  split; [| by apply P_seq].
  unfold recvs in *. by rewrite omap_app, <- app_assoc, <- Hi2.
Qed.

Lemma emits_for_each {A} (l : list A) (body : A -> M unit) :
  (forall x, emits P (body x)) -> emits P (for_each l body).
Proof.
  intros Hb. induction l as [| x l IH]; simpl.
  - apply emits_ret.
  - apply emits_bind; [apply Hb | intros _; exact IH].
Qed.

Lemma emits_send_event name kwargs : emits P (send_event name kwargs).
Proof.
  intros w.
  destruct (dict_json_ok (request name kwargs)) eqn:Hok.
  - assert (Hk : send_event name kwargs w
              = bind (sock_recv_json) (fun recv =>
                  if py_eq_str recv "die" then raise SystemExit
                  else if negb (py_eq_str recv "ack") then ret recv
                  else ret VNone)
                  (log_event (EvSend (request name kwargs)) w)).
    { unfold send_event, bind at 1, sock_send_json.
      fold (request name kwargs). by rewrite Hok. }
    rewrite Hk. unfold bind, sock_recv_json. simpl.
    destruct (inbox w) as [| r rest] eqn:Hin; simpl.
    + exists [EvSend (request name kwargs)]. by repeat split.
    + exists [EvSend (request name kwargs); EvRecv r].
      destruct (py_eq_str r "die") eqn:Hd; simpl.
      * apply py_eq_str_true in Hd as ->.
        split; [by rewrite <- app_assoc |]. by split.
      * apply py_eq_str_false in Hd.
        destruct (negb (py_eq_str r "ack")); simpl;
          (split; [by rewrite <- app_assoc |]); (split; [done |]);
          by apply P_exchange.
  - rewrite (send_event_unsendable _ _ _ Hok). exists []. simpl.
    rewrite app_nil_r. repeat split. by apply P_raise.
Qed.

Lemma emits_message text kwargs : emits P (message text kwargs).
Proof.
  unfold message. apply emits_bind; [apply emits_send_event |].
  intros _. apply emits_ret.
Qed.

Lemma emits_pytest_collection_finish s : emits P (pytest_collection_finish s).
Proof.
  unfold pytest_collection_finish.
  apply emits_bind; [by apply emits_silent, silent_modify | intros _].
  apply emits_bind; [by apply emits_silent, silent_modify | intros _].
  apply emits_bind; [apply emits_silent, silent_gets | intros c].
  apply emits_bind; [apply emits_send_event | intros _; apply emits_ret].
Qed.

Lemma emits_pytest_runtest_logstart id location :
  emits P (pytest_runtest_logstart id location).
Proof.
  unfold pytest_runtest_logstart.
  apply emits_bind; [apply emits_send_event | intros _; apply emits_ret].
Qed.

Lemma emits_pytest_runtest_logreport report :
  emits P (pytest_runtest_logreport report).
Proof.
  unfold pytest_runtest_logreport.
  apply emits_bind; [apply emits_silent, silent_serialize_report | intros d].
  apply emits_bind; [apply emits_silent, silent_gets | intros v].
  apply emits_bind; [apply emits_send_event | intros _; apply emits_ret].
Qed.

Lemma emits_pytest_internalerror excrepr : emits P (pytest_internalerror excrepr).
Proof.
  unfold pytest_internalerror.
  destruct (last _); [| by apply emits_silent, silent_raise].
  apply emits_bind; [apply emits_send_event | intros _; apply emits_ret].
Qed.

Lemma emits_handle_quit : emits P handle_quit.
Proof.
  unfold handle_quit. apply emits_bind; [apply emits_message | intros _].
  by apply emits_silent, silent_modify.
Qed.

Lemma emits_shutdown : emits P shutdown.
Proof.
  unfold shutdown. apply emits_bind; [apply emits_message | intros _].
  apply emits_bind; [apply emits_send_event | intros _].
  by apply emits_silent, silent_modify.
Qed.

Lemma emits_run_call c : emits P (run_call c).
Proof.
  destruct c; simpl.
  - apply emits_bind; [apply emits_send_event | intros _; apply emits_ret].
  - apply emits_message.
  - apply emits_pytest_collection_finish.
  - apply emits_pytest_runtest_logstart.
  - apply emits_bind; [apply emits_silent, silent_alloc | intros rep].
    apply emits_pytest_runtest_logreport.
  - apply emits_pytest_internalerror.
  - apply emits_shutdown.
  - apply emits_handle_quit.
  - apply emits_shutdown.
Qed.

Lemma emits_lookup id rest :
  emits P (do it <- collection_getitem id ; ret (Some it, INBatch rest)).
Proof.
  apply emits_bind; [apply emits_silent, silent_collection_getitem |].
  intros it. apply emits_ret.
Qed.

Lemma emits_iter_nodes_pull : emits P iter_nodes_pull.
Proof.
  unfold iter_nodes_pull.
  apply emits_bind; [apply emits_send_event | intros node_ids].
  destruct (negb _); [apply emits_ret |].
  destruct (py_iter node_ids) as [[| id rest] |];
    [apply emits_ret | apply emits_lookup |].
  by apply emits_silent, silent_raise.
Qed.

Lemma emits_iter_nodes_next g : emits P (iter_nodes_next g).
Proof.
  destruct g as [| [| id rest] |]; simpl;
    auto using emits_ret, emits_iter_nodes_pull, emits_lookup.
Qed.

Lemma emits_pair_up run_node node_iter : emits P (pair_up run_node node_iter).
Proof.
  unfold pair_up. apply emits_bind; [apply emits_iter_nodes_next |].
  intros [[next_node |] node_iter']; apply emits_ret.
Qed.

Lemma emits_test_generator_next g : emits P (test_generator_next g).
Proof.
  destruct g; simpl; auto using emits_ret, emits_pair_up.
  apply emits_bind; [apply emits_iter_nodes_pull |].
  intros [[run_node |] node_iter]; auto using emits_ret, emits_pair_up.
Qed.

Hypothesis P_run : forall i n, P [EvRun i n] SRet.

Variable runtest_protocol : Item -> option Item -> list Call.

Lemma emits_hook_pytest_runtest_protocol item nextitem :
  emits P (hook_pytest_runtest_protocol runtest_protocol item nextitem).
Proof.
  unfold hook_pytest_runtest_protocol. apply emits_bind.
  - intros w. exists [EvRun item nextitem]. simpl. by repeat split.
  - intros _. apply emits_for_each, emits_run_call.
Qed.

Lemma emits_runtestloop_from fuel g :
  emits P (runtestloop_from runtest_protocol fuel g).
Proof.
  revert g. induction fuel as [| fuel IH]; intros g; simpl.
  - apply emits_out_of_fuel.
  - apply emits_bind; [apply emits_test_generator_next |].
    intros [[[item nextitem] |] g']; [| apply emits_ret].
    apply emits_bind; [apply emits_silent, silent_gets | intros co].
    apply emits_bind.
    { destruct co; [apply emits_message |].
      apply emits_hook_pytest_runtest_protocol. }
    intros _. apply emits_bind; [apply emits_silent, silent_gets | intros quit].
    destruct quit; [apply emits_ret | apply IH].
Qed.

Lemma emits_run_op o : emits P (run_op runtest_protocol o).
Proof.
  destruct o as [c | fuel]; simpl; [apply emits_run_call |].
  apply emits_bind; [apply emits_runtestloop_from | intros _; apply emits_ret].
Qed.

End Emits.

(** * A reply ["die"] *)

Lemma die_is_final_quiet t s :
  EvRecv (VStr "die") ∉ t -> s <> SRaise SystemExit -> die_is_final t s.
Proof.
  intros Hno Hs. split.
  - intros i Hi. destruct Hno. by eapply list_elem_of_lookup_2.
  - split; [done | by intros ->].
Qed.

Lemma die_is_final_seq t1 t2 s :
  die_is_final t1 SRet -> die_is_final t2 s -> die_is_final (t1 ++ t2) s.
Proof.
  intros [_ [H1 _]] [H2 H3].
  assert (Hno : EvRecv (VStr "die") ∉ t1) by (intros Hin; by apply H1 in Hin).
  split.
  - intros i Hi. apply lookup_app_Some in Hi as [Hi | [Hlen Hi]].
    + destruct Hno. by eapply list_elem_of_lookup_2.
    + apply H2 in Hi. rewrite length_app. lia.
  - rewrite elem_of_app, <- H3. tauto.
Qed.

Lemma die_is_final_emitted protocol op : emits die_is_final (run_op protocol op).
Proof.
  apply emits_run_op.
  - apply die_is_final_quiet; [apply not_elem_of_nil | done].
  - intros e He. apply die_is_final_quiet; [apply not_elem_of_nil | congruence].
  - apply die_is_final_quiet; [apply not_elem_of_nil | done].
  - apply die_is_final_seq.
  - intros msg r Hr. apply die_is_final_quiet; [| done].
    intros Hin. apply elem_of_cons in Hin as [Hin | Hin]; [done |].
    apply list_elem_of_singleton in Hin. congruence.
  - intros msg. split.
    + intros [| [| i]] Hi; simpl in *; try done.
    + split; [done |]. intros _. right. left.
  - intros msg. apply die_is_final_quiet; [| done].
    intros Hin. by apply list_elem_of_singleton in Hin.
  - intros i n. apply die_is_final_quiet; [| done].
    intros Hin. by apply list_elem_of_singleton in Hin.
Qed.

(** X1.  Whatever operation of the worker runs, the run loop included, and
    whatever the master replies: a reply ["die"] is the last thing that
    happens in it, nothing is sent and no test is run after it, and the
    operation ends in [SystemExit]; and an operation ends in [SystemExit]
    only when such a reply has come. *)
Theorem die_ends_every_operation protocol op w :
  exists t,
    trace (snd (run_op protocol op w)) = trace w ++ t /\
    (forall i, t !! i = Some (EvRecv (VStr "die")) -> S i = length t) /\
    (EvRecv (VStr "die") ∈ t <-> fst (run_op protocol op w) = Raise SystemExit).
Proof.
  destruct (die_is_final_emitted protocol op w) as (t & Ht & _ & Hlast & Hdie).
  exists t. split; [done |]. split; [done |].
  rewrite Hdie. destruct (fst (run_op protocol op w)); simpl; split; congruence.
Qed.

(** * The discipline of the request socket *)

Lemma handshake_app b t1 t2 :
  handshake b (t1 ++ t2) = handshake b t1 ≫= fun b' => handshake b' t2.
Proof.
  revert b. induction t1 as [| e t1 IH]; intros b; [done |].
  destruct e, b; simpl; auto.
Qed.

Lemma keeps_handshake_emitted protocol op :
  emits keeps_handshake (run_op protocol op).
Proof.
  apply emits_run_op; try done.
  intros t1 t2 s H1 H2. unfold keeps_handshake in *.
  by rewrite handshake_app, H1.
Qed.

(** X2.  Whatever operation of the worker runs, the run loop included: it
    sends a request only when no request is outstanding, reads a reply only
    to an outstanding request, and hands a test to the engine only between
    exchanges; when it ends, a request is outstanding exactly if it is
    blocked waiting for the reply; and the replies it has read are the
    master's next replies, in order and without gaps. *)
Theorem requests_and_replies_alternate protocol op w :
  exists t,
    trace (snd (run_op protocol op w)) = trace w ++ t /\
    inbox w = recvs t ++ inbox (snd (run_op protocol op w)) /\
    handshake false t
    = Some (is_blocked (status (fst (run_op protocol op w)))).
Proof. apply keeps_handshake_emitted. Qed.

(** * Tests are run in the order received *)















(** * Collect-only mode *)

Lemma message_self text kwargs : steps same_self (message text kwargs).
Proof.
  apply steps_message; unfold same_self; try done.
  intros w1 w2 w3 H1 H2. by rewrite H2.
Qed.

Lemma collectonly_loop protocol fuel :
  forall g w o w',
    collectonly (self w) = true ->
    runtestloop_from protocol fuel g w = (o, w') ->
    runs (trace w') = runs (trace w) /\ self w' = self w.
Proof.
  induction fuel as [| fuel IH]; intros g w o w' Hco H.
  { by injection H as <- <-. }
  rewrite runtestloop_from_S in H. unfold bind at 1 in H.
  pose proof (quiet_runs _ _ (test_generator_next_quiet g w)) as Hr1.
  pose proof (test_generator_next_self g w) as Hs1. unfold same_self in Hs1.
  destruct (test_generator_next g w) as [[[[[item nextitem] |] g1] | e | |] w1];
    simpl in Hr1, Hs1; try (by injection H as <- <-).
  unfold bind at 1, gets at 1 in H. rewrite Hs1, Hco in H.
  unfold bind at 1 in H.
  pose proof (quiet_runs _ _ (message_quiet (nodeid item) [] w1)) as Hr2.
  pose proof (message_self (nodeid item) [] w1) as Hs2. unfold same_self in Hs2.
  destruct (message (nodeid item) [] w1) as [[[] | e | |] w2];
    simpl in Hr2, Hs2; try (injection H as <- <-; split; congruence).
  unfold bind at 1, gets at 1 in H.
  destruct (quit_signaled (self w2));
    [injection H as <- <-; split; congruence |].
  destruct (IH g1 w2 o w') as [Hr3 Hs3]; [congruence | done |].
  split; congruence.
Qed.

(** X4.  With [collectonly] set, the run loop hands no test to the engine,
    from whatever point it is resumed, whatever the master replies and
    however the loop ends; and it leaves the worker's fields, the quit flag
    among them, as they were. *)
Theorem collectonly_runs_no_test protocol fuel g w :
  collectonly (self w) = true ->
  runs (trace (snd (runtestloop_from protocol fuel g w))) = runs (trace w) /\
  self (snd (runtestloop_from protocol fuel g w)) = self w.
Proof.
  intros Hco.
  apply (collectonly_loop protocol fuel g w
           (fst (runtestloop_from protocol fuel g w)) _ Hco).
  apply surjective_pairing.
Qed.

Lemma collectonly_runs_no_test_witness :
  let w := world_of (with_collection (collect (items session_abc))
                       (init true "slave0" "https://appliance"))
             [ids ["a"; "b"]; VStr "ack"; ids []; VStr "ack"] in
  runs (trace (snd (pytest_runtestloop quit_during_a 5 w))) = [] /\
  self (snd (pytest_runtestloop quit_during_a 5 w)) = self w.
Proof.
  intros w. apply (collectonly_runs_no_test quit_during_a 5 TGStart w).
  reflexivity.
Defined.

(** * The collection *)

Lemma collect_snoc l x : collect (l ++ [x]) = <[nodeid x := x]> (collect l).
Proof. unfold collect. by rewrite foldl_app. Qed.

Lemma collect_lookup l k :
  collect l !! k = last (filter (fun it => nodeid it = k) l).
Proof.
  induction l as [| x l IH] using rev_ind; [done |].
  rewrite collect_snoc, filter_app, lookup_insert.
  case_decide as Hk.
  - rewrite filter_cons_True, filter_nil by done. by rewrite last_snoc.
  - rewrite filter_cons_False, filter_nil by done. by rewrite app_nil_r.
Qed.

Lemma node_ids_json_ok keys :
  dict_json_ok [("node_ids", VList (VStr <$> keys))] = true.
Proof.
  unfold dict_json_ok. simpl. rewrite andb_true_r.
  induction keys as [| k keys IH]; [done |]. simpl. exact IH.
Qed.

Lemma dict_keys_spec {A} (m : gmap string A) k :
  k ∈ dict_keys m <-> is_Some (m !! k).
Proof.
  unfold dict_keys. rewrite list_elem_of_fmap. split.
  - intros ((k' & v) & -> & Hin). apply elem_of_map_to_list in Hin. by eexists.
  - intros [v Hv]. exists (k, v). split; [done |]. by apply elem_of_map_to_list.
Qed.

(** X5.  [pytest_collection_finish] records the session and files its items
    by node id before it talks to the master, so they are recorded however
    the exchange ends; of several items with one node id the last one is
    kept; and the request it sends lists every node id of the session, each
    once. *)
Theorem collection_finish_records s w :
  session (self (snd (pytest_collection_finish s w))) = Some s /\
  (exists c,
     collection (self (snd (pytest_collection_finish s w))) = Some c /\
     forall k, c !! k = last (filter (fun it => nodeid it = k) (items s))) /\
  quit_signaled (self (snd (pytest_collection_finish s w)))
  = quit_signaled (self w) /\
  exists keys,
    trace (snd (pytest_collection_finish s w)) !! length (trace w)
    = Some (EvSend (collectionfinish_message keys)) /\
    NoDup keys /\
    forall k, k ∈ keys <-> k ∈ nodeid <$> items s.
Proof.
  set (w1 := set_self (with_collection (collect (items s)))
               (set_self (with_session s) w)).
  assert (Hrun : pytest_collection_finish s w
    = (send_event "collectionfinish"
         [("node_ids", VList (VStr <$> dict_keys (collect (items s))))] ;;
       ret tt) w1) by reflexivity.
  assert (Hself : self (snd (pytest_collection_finish s w)) = self w1).
  { rewrite Hrun. apply (steps_bind same_self).
    - unfold same_self. congruence.
    - apply steps_send_event; unfold same_self; try done.
      intros u1 u2 u3 H1 H2. by rewrite H2.
    - intros _ u. reflexivity. }
  rewrite Hself. split; [done |]. split; [| split; [done |]].
  { exists (collect (items s)). split; [done |]. apply collect_lookup. }
  exists (dict_keys (collect (items s))). split; [| split].
  - rewrite Hrun. unfold bind.
    pose proof (node_ids_json_ok (dict_keys (collect (items s)))) as Hok.
    destruct (inbox w1) as [| r rest] eqn:Hin.
    + rewrite (send_event_blocked _ _ _ Hok Hin). simpl.
      by rewrite list_lookup_middle.
    + rewrite (send_event_reply _ _ _ _ _ Hok Hin).
      assert (Hat : trace (exchanged
                 (request "collectionfinish"
                    [("node_ids", VList (VStr <$> dict_keys (collect (items s))))])
                 r rest w1) !! length (trace w)
               = Some (EvSend (collectionfinish_message
                                 (dict_keys (collect (items s)))))).
      { simpl. by rewrite list_lookup_middle. }
      by destruct (reply_outcome r).
  - apply NoDup_fst_map_to_list.
  - intros k. rewrite dict_keys_spec, collect_lookup, list_elem_of_fmap.
    split.
    + intros [it Hit]. apply last_Some_elem_of in Hit.
      apply list_elem_of_filter in Hit as [Hk Hin]. by exists it.
    + intros (it & -> & Hin).
      destruct (last (filter (fun it' => nodeid it' = nodeid it) (items s)))
        as [it' |] eqn:Hlast; [by eexists |].
      apply last_None in Hlast.
      assert (Hf : it ∈ filter (fun it' => nodeid it' = nodeid it) (items s))
        by (by apply list_elem_of_filter).
      rewrite Hlast in Hf. by apply elem_of_nil in Hf.
Qed.

(** * Replies to [need_tests] that are not batches of collected ids *)

(** X6.  A reply ["ack"] to [need_tests] ends the pull like an empty batch:
    [send_event] turns it into no result, which the generator takes for "no
    more tests".  At the start the run loop returns [True] without a test;
    later the test in hand is announced as the last one. *)
Theorem ack_to_need_tests_stops protocol fuel run_node rest w :
  inbox w = VStr "ack" :: rest ->
  pytest_runtestloop protocol (S fuel) w
  = (Ret true, pulled [VStr "ack"] rest w) /\
  test_generator_next (TGLoop run_node (INBatch [])) w
  = (Ret (Some (run_node, None), TGLast), pulled [VStr "ack"] rest w).
Proof.
  intros Hin.
  assert (Hpull : iter_nodes_pull w
                  = (Ret (None, INDone), pulled [VStr "ack"] rest w)).
  { unfold iter_nodes_pull, bind. by rewrite (need_tests_reply _ _ _ Hin). }
  split.
  - unfold pytest_runtestloop. rewrite runtestloop_from_S.
    unfold bind at 1. simpl test_generator_next. unfold bind at 1.
    by rewrite Hpull.
  - simpl. unfold pair_up, bind. simpl iter_nodes_next. by rewrite Hpull.
Qed.

Lemma ack_to_need_tests_stops_witness :
  pytest_runtestloop quit_during_a 1 (world_of collected [VStr "ack"])
  = (Ret true, pulled [VStr "ack"] [] (world_of collected [VStr "ack"])).
Proof.
  apply (ack_to_need_tests_stops quit_during_a 0 item_a [] 
           (world_of collected [VStr "ack"])).
  reflexivity.
Defined.

(** X7.  On a worker whose collection has not been recorded
    ([self.collection] is still [None]), the first node id the master
    delivers makes the lookup raise [TypeError]; the error leaves the run
    loop and no test is run. *)
Theorem loop_before_collection_raises protocol fuel r k ks rest w :
  collection (self w) = None ->
  inbox w = r :: rest ->
  reply_outcome r = Ret r ->
  truthy r = true ->
  py_iter r = Some (k :: ks) ->
  pytest_runtestloop protocol (S fuel) w
  = (Raise TypeError, pulled [r] rest w) /\
  runs (trace (pulled [r] rest w)) = runs (trace w).
Proof.
  intros Hc Hin Hr Ht Hiter.
  assert (Hpull : iter_nodes_pull w = (Raise TypeError, pulled [r] rest w)).
  { unfold iter_nodes_pull, bind.
    rewrite (need_tests_reply _ _ _ Hin), Hr, Ht, Hiter. simpl.
    unfold collection_getitem. simpl. by rewrite Hc. }
  split.
  - unfold pytest_runtestloop. rewrite runtestloop_from_S.
    unfold bind at 1. simpl test_generator_next. unfold bind at 1.
    by rewrite Hpull.
  - unfold pulled, runs. simpl. rewrite omap_app. simpl. by rewrite app_nil_r.
Qed.

Lemma loop_before_collection_raises_witness :
  pytest_runtestloop quit_during_a 3
    (world_of (init false "slave0" "https://appliance") [ids ["a"]; VStr "ack"])
  = (Raise TypeError,
     pulled [ids ["a"]] [VStr "ack"]
       (world_of (init false "slave0" "https://appliance")
          [ids ["a"]; VStr "ack"])).
Proof.
  apply (loop_before_collection_raises quit_during_a 2 (ids ["a"]) (VStr "a") []
           [VStr "ack"]
           (world_of (init false "slave0" "https://appliance")
              [ids ["a"]; VStr "ack"])); reflexivity.
Defined.

(** * Shutting down *)

(** X8.  [shutdown] sends its farewell message and then the [shutdown]
    event, each only after the reply to what went before, and sets the quit
    flag last: a reply ["die"] to either, or a reply that never comes, ends
    it there, with the later steps not taken and the flag as it was. *)
Theorem shutdown_effect w :
  shutdown w =
  match inbox w with
  | [] => (Blocked, log_event (EvSend farewell_message) w)
  | r1 :: rest1 =>
      let w1 := exchanged farewell_message r1 rest1 w in
      if py_eq_str r1 "die" then (Raise SystemExit, w1)
      else
        match rest1 with
        | [] => (Blocked, log_event (EvSend shutdown_message) w1)
        | r2 :: rest2 =>
            let w2 := exchanged shutdown_message r2 rest2 w1 in
            if py_eq_str r2 "die" then (Raise SystemExit, w2)
            else (Ret tt, set_self (with_quit true) w2)
        end
  end.
Proof.
  assert (Hok : dict_json_ok
    [("message", VStr "shutting down"); ("markup", VDict [])] = true)
    by reflexivity.
  assert (Hok' : dict_json_ok [] = true) by reflexivity.
  unfold shutdown, message.
  destruct (inbox w) as [| r1 rest1] eqn:Hin.
  { erewrite bind_blocked; [done |]. erewrite bind_blocked; [done |].
    by apply send_event_blocked. }
  unfold bind at 1 2. rewrite (send_event_reply _ _ _ _ _ Hok Hin).
  fold farewell_message. unfold reply_outcome.
  destruct (py_eq_str r1 "die"); [done |].
  assert (Hnext : forall w1, inbox w1 = rest1 ->
    (send_event "shutdown" [];; modify (set_self (with_quit true))) w1
    = match rest1 with
      | [] => (Blocked, log_event (EvSend shutdown_message) w1)
      | r2 :: rest2 =>
          if py_eq_str r2 "die"
          then (Raise SystemExit, exchanged shutdown_message r2 rest2 w1)
          else (Ret tt, set_self (with_quit true)
                          (exchanged shutdown_message r2 rest2 w1))
      end).
  { intros w1 Hin1. destruct rest1 as [| r2 rest2].
    - erewrite bind_blocked; [done |]. by apply send_event_blocked.
    - unfold bind. rewrite (send_event_reply _ _ _ _ _ Hok' Hin1).
      fold shutdown_message. unfold reply_outcome.
      destruct (py_eq_str r2 "die"); [done |].
      by destruct (py_eq_str r2 "ack"). }
  destruct (py_eq_str r1 "ack"); simpl; by rewrite Hnext.
Qed.

(** * Reports that can be sent *)





(** * The last line of an internal error *)











(** * The run loop comes to an end *)

Lemma replies_cost_app l1 l2 :
  replies_cost (l1 ++ l2) = replies_cost l1 + replies_cost l2.
Proof. induction l1 as [| r l1 IH]; simpl; [done |]. rewrite IH. lia. Qed.

Lemma emitted_spends {A} (m : M A) w :
  emits not_out_of_fuel m ->
  fst (m w) <> OutOfFuel /\
  replies_cost (inbox (snd (m w))) <= replies_cost (inbox w).
Proof.
  intros Hm. destruct (Hm w) as (t & _ & Hin & Hs). split.
  - intros Ho. rewrite Ho in Hs. by apply Hs.
  - rewrite Hin, replies_cost_app. lia.
Qed.

Lemma not_out_of_fuel_seq t1 t2 s :
  not_out_of_fuel t1 SRet -> not_out_of_fuel t2 s -> not_out_of_fuel (t1 ++ t2) s.
Proof. by intros _ H. Qed.

Lemma iter_nodes_next_spends it :
  emits not_out_of_fuel (iter_nodes_next it).
Proof. by apply emits_iter_nodes_next; try apply not_out_of_fuel_seq. Qed.

Lemma test_generator_next_spends g :
  emits not_out_of_fuel (test_generator_next g).
Proof. by apply emits_test_generator_next; try apply not_out_of_fuel_seq. Qed.

Lemma message_spends text kwargs : emits not_out_of_fuel (message text kwargs).
Proof. by apply emits_message; try apply not_out_of_fuel_seq. Qed.

Lemma hook_spends protocol item nextitem :
  emits not_out_of_fuel (hook_pytest_runtest_protocol protocol item nextitem).
Proof.
  by apply emits_hook_pytest_runtest_protocol; try apply not_out_of_fuel_seq.
Qed.

Lemma iter_nodes_next_budget it w item it' w' :
  iter_nodes_next it w = (Ret (Some item, it'), w') ->
  length (iter_pending it') + replies_cost (inbox w')
  < length (iter_pending it) + replies_cost (inbox w).
Proof.
  assert (Hlook : forall k rest,
    (do i <- collection_getitem k ; ret (Some i, INBatch rest)) w
    = (Ret (Some item, it'), w') ->
    w' = w /\ it' = INBatch rest).
  { intros k rest H. unfold bind in H.
    destruct (collection_getitem k w) as [o1 w1] eqn:Hget.
    apply collection_getitem_inv in Hget as [-> _].
    destruct o1; [| done ..]. injection H as ? ? ?. by subst. }
  assert (Hpull : iter_nodes_pull w = (Ret (Some item, it'), w') ->
    length (iter_pending it') + replies_cost (inbox w')
    < replies_cost (inbox w)).
  { intros H. unfold iter_nodes_pull in H. unfold bind at 1 in H.
    destruct (inbox w) as [| r more] eqn:Hin.
    { by rewrite (send_event_blocked "need_tests" [] w eq_refl Hin) in H. }
    rewrite (need_tests_reply _ _ _ Hin) in H.
    destruct (reply_outcome r) as [v | e | |] eqn:Hr; try done.
    destruct (negb (truthy v)); [done |].
    destruct (py_iter v) as [[| k rest] |] eqn:Hiter; try done.
    assert (v = r) as ->.
    { unfold reply_outcome in Hr. destruct (py_eq_str r "die"); [done |].
      destruct (py_eq_str r "ack"); [| congruence].
      injection Hr as <-. discriminate Hiter. }
    unfold bind in H.
    destruct (collection_getitem k (pulled [r] more w)) as [o1 w1] eqn:Hget.
    apply collection_getitem_inv in Hget as [-> _].
    destruct o1; [| done ..]. injection H as ? ? ?. subst.
    simpl. rewrite Hiter. simpl. lia. }
  intros H. destruct it as [| [| k rest] |]; simpl in H.
  - simpl. by apply Hpull.
  - simpl. by apply Hpull.
  - apply Hlook in H as [-> ->]. simpl. lia.
  - done.
Qed.

Lemma pair_up_budget run it w p g' w' :
  pair_up run it w = (Ret (Some p, g'), w') ->
  budget g' (inbox w') < budget (TGLoop run it) (inbox w).
Proof.
  intros H. unfold pair_up, bind in H.
  pose proof (emitted_spends _ w (iter_nodes_next_spends it)) as [_ Hle].
  destruct (iter_nodes_next it w) as [[[[next |] it1] | e | |] w1] eqn:Hnext;
    try done.
  - injection H as <- <- <-. apply iter_nodes_next_budget in Hnext.
    unfold budget. simpl. lia.
  - injection H as <- <- <-. simpl in Hle. unfold budget. simpl. lia.
Qed.

Lemma test_generator_next_budget g w p g' w' :
  test_generator_next g w = (Ret (Some p, g'), w') ->
  budget g' (inbox w') < budget g (inbox w).
Proof.
  intros H. destruct g as [| run it | |]; try done.
  - simpl in H. unfold bind in H.
    destruct (iter_nodes_pull w) as [[[[run |] it] | e | |] w1] eqn:Hpull;
      try done.
    apply pair_up_budget in H.
    apply (iter_nodes_next_budget INStart) in Hpull.
    unfold budget in *. simpl in *. lia.
  - exact (pair_up_budget run it w p g' w' H).
Qed.

(** X11.  Against a master that gives finitely many replies the run loop
    comes to an end: run for more turns than the node ids it holds plus, for
    every reply still to come, one and the number of ids in it, the loop
    has returned, raised, or is blocked waiting for a reply that does not
    come. *)
Theorem runtestloop_ends protocol fuel :
  forall g w,
    budget g (inbox w) < fuel ->
    fst (runtestloop_from protocol fuel g w) <> OutOfFuel.
Proof.
  induction fuel as [| fuel IH]; intros g w Hfuel; [lia |].
  rewrite runtestloop_from_S. unfold bind at 1.
  pose proof (emitted_spends _ w (test_generator_next_spends g)) as [Hno1 _].
  destruct (test_generator_next g w) as [[[[[item nextitem] |] g1] | e | |] w1]
    eqn:Hgen; try done.
  apply test_generator_next_budget in Hgen.
  unfold bind at 1, gets at 1. unfold bind at 1.
  assert (Hbody : emits not_out_of_fuel
    (if collectonly (self w1) then message (nodeid item) []
     else hook_pytest_runtest_protocol protocol item nextitem)).
  { destruct (collectonly (self w1)); [apply message_spends | apply hook_spends]. }
  pose proof (emitted_spends _ w1 Hbody) as [Hno2 Hle2].
  destruct ((if collectonly (self w1) then message (nodeid item) []
             else hook_pytest_runtest_protocol protocol item nextitem) w1)
    as [[[] | e | |] w2]; try done.
  unfold bind at 1, gets at 1.
  destruct (quit_signaled (self w2)); [done |].
  apply IH. simpl in Hle2. unfold budget in *. lia.
Qed.

Lemma runtestloop_ends_witness :
  let w := world_of collected
             [ids ["a"; "b"]; VStr "ack"; VStr "ack"; ids ["c"]; VStr "ack";
              VStr "ack"; VStr "ack"; VStr "ack"; ids []] in
  fst (pytest_runtestloop quit_during_a 40 w) <> OutOfFuel.
Proof.
  intros w. apply (runtestloop_ends quit_during_a 40 TGStart w).
  vm_compute. lia.
Defined.

(** * A quit flag set before a test starts *)

(** X12.  The flag is only looked at after a test: if it is already set
    when the generator hands out a test, at the start of the loop as well
    as later, that one test is still handed to the engine and run to its
    end, and only then does the loop end. *)
Theorem quit_beforehand_runs_one_more protocol fuel g w item nextitem g1 w1
    o w2 :
  quit_signaled (self w) = true ->
  test_generator_next g w = (Ret (Some (item, nextitem), g1), w1) ->
  collectonly (self w1) = false ->
  for_each (protocol item nextitem) run_call
    (log_event (EvRun item nextitem) w1) = (o, w2) ->
  runtestloop_from protocol (S fuel) g w = (loop_exit o, w2) /\
  runs (trace w2) = runs (trace w) ++ [(item, nextitem)].
Proof.
  intros Hquit Hgen Hco Hrun.
  assert (Hq1 : quit_signaled (self (log_event (EvRun item nextitem) w1)) = true).
  { pose proof (test_generator_next_self g w) as Hs.
    rewrite Hgen in Hs. unfold same_self in Hs. simpl in *. by rewrite Hs. }
  split.
  - rewrite runtestloop_from_S. unfold bind at 1. rewrite Hgen.
    unfold bind at 1, gets at 1. rewrite Hco.
    unfold bind at 1. rewrite hook_run, Hrun.
    destruct o as [[] | e | |]; try reflexivity.
    unfold bind, gets.
    pose proof (calls_keep_quit (protocol item nextitem) _ Hq1) as Hq.
    rewrite Hrun in Hq. simpl in Hq. by rewrite Hq.
  - pose proof (quiet_runs _ _ (test_generator_next_quiet g w)) as H1.
    pose proof (quiet_runs _ _ (calls_quiet (protocol item nextitem)
                  (log_event (EvRun item nextitem) w1))) as H2.
    rewrite Hgen in H1. rewrite Hrun in H2. simpl in H1, H2. rewrite H2.
    unfold runs in *. by rewrite omap_app, H1.
Qed.

Lemma quit_beforehand_runs_one_more_witness :
  let w := world_of (with_quit true collected)
             [ids ["a"; "b"]; VStr "ack"; VStr "ack"; VStr "ack"] in
  fst (pytest_runtestloop quit_during_a 3 w) = Ret true /\
  runs (trace (snd (pytest_runtestloop quit_during_a 3 w)))
  = [(item_a, Some item_b)].
Proof.
  intros w.
  pose (w1 := snd (test_generator_next TGStart w)).
  pose (w2 := snd (for_each (quit_during_a item_a (Some item_b)) run_call
                     (log_event (EvRun item_a (Some item_b)) w1))).
  destruct (quit_beforehand_runs_one_more quit_during_a 2 TGStart w
              item_a (Some item_b) (TGLoop item_b (INBatch [])) w1
              (Ret tt) w2) as [Hloop Hruns].
  - reflexivity.
  - vm_compute. reflexivity.
  - reflexivity.
  - vm_compute. reflexivity.
  - unfold pytest_runtestloop. rewrite Hloop. split; [reflexivity | exact Hruns].
Defined.
